(** * tiny-bloomfilter: a shallow embedding of [src/index.ts]

    The TypeScript module implements a Bloom filter whose bit-vector is one
    arbitrary-precision [bigint].  The embedding keeps that representation:
    the filter is a [Z], bit operations are [Z.lor], [Z.land], [Z.lxor],
    [Z.shiftl] and [Z.shiftr], and the 64-bit wrap-around of the index
    generator is the explicit [Z.land _ mask64] of the source.

    JavaScript [number]s that only ever hold integers ([bits], [k]: the
    constructor and [itemHash] pass them through [BigInt(...)], which rejects
    every non-integral number) are modelled by [Z]; the numbers that are
    genuinely fractional (the size estimate, the optimiser) are IEEE-754
    binary64 values, modelled by the primitive [float] of the standard
    library.

    The collaborators that live outside the repository are parameters of the
    development: the 64-bit hash [XXH64] (package xxh3-ts), the population
    count [fastpopcnt] (package bigint-popcnt) and the two transcendental
    functions [Math.log] and [Math.pow] of the JavaScript runtime. *)

From Stdlib.Strings Require Import String.
From Stdlib.Strings Require Byte.
From Stdlib Require Import ZArith List Lia Bool Ascii Floats.
Import ListNotations.
Local Open Scope Z_scope.

(** The literal [0.001] stands for the binary64 value nearest to it, as in
    the source. *)
Set Warnings "-inexact-float".

Abbreviation byte := Byte.byte.

(* ================================================================== *)
(** * JavaScript values and completions *)
(* ================================================================== *)

(** A Node [Buffer] is a sequence of bytes. *)
Definition Buffer : Type := list byte.

(** A JavaScript string, as the sequence of its code units. *)
Definition jsstring : Type := list ascii.

(** The argument of [add], [test] and [itemHash] has type [string | Buffer]. *)
Inductive item : Type :=
| ItemString (s : string)
| ItemBuffer (b : Buffer).

(** [Buffer.from(v)] on a string: its bytes. *)
Definition Buffer_from (s : string) : Buffer := String.list_byte_of_string s.

(** [typeof v === 'string' ? Buffer.from(v) : v] (line 114). *)
Definition item_bytes (v : item) : Buffer :=
  match v with
  | ItemString s => Buffer_from s
  | ItemBuffer b => b
  end.

(** Exceptions the module can raise. *)
Inductive exn : Type :=
| RangeError (msg : string)
| SyntaxError (msg : string)
| Error (msg : string).

(** The completion of a call: a normal return or a [throw]. *)
Inductive completion (A : Type) : Type :=
| Normal (a : A)
| Throw (e : exn).
Arguments Normal {A} a.
Arguments Throw {A} e.

Definition bind {A B : Type} (c : completion A) (f : A -> completion B)
  : completion B :=
  match c with
  | Normal a => f a
  | Throw e => Throw e
  end.

Notation "'do' x <- c ; f" := (bind c (fun x => f))
  (at level 10, x name, c at level 100, f at level 200).

(* ================================================================== *)
(** * Hexadecimal strings and the two buffer conversions (lines 4-20) *)
(* ================================================================== *)

(** The lower-case hexadecimal digit of a value in [0, 16). *)
Definition hex_digit (d : Z) : ascii :=
  if d <? 10 then ascii_of_N (Z.to_N (48 + d))
  else ascii_of_N (Z.to_N (87 + d)).

(** The value of a hexadecimal digit; both cases are accepted by Node. *)
Definition hex_value (c : ascii) : option Z :=
  let n := Z.of_N (N_of_ascii c) in
  if (48 <=? n) && (n <=? 57) then Some (n - 48)
  else if (97 <=? n) && (n <=? 102) then Some (n - 87)
  else if (65 <=? n) && (n <=? 70) then Some (n - 55)
  else None.

(** Digits of a positive number in base 16, most significant first. *)
Fixpoint hex_digits (fuel : nat) (n : Z) (acc : list Z) : list Z :=
  match fuel with
  | O => acc
  | S fuel' =>
      if n =? 0 then acc
      else hex_digits fuel' (n / 16) (n mod 16 :: acc)
  end.

(** [num.toString(16)] on a [bigint]. *)
Definition BigInt_toString16 (num : Z) : jsstring :=
  if num =? 0 then ["0"%char]
  else
    let mag := Z.abs num in
    let body := map hex_digit (hex_digits (S (Z.to_nat (Z.log2 mag))) mag []) in
    if num <? 0 then "-"%char :: body else body.

(** [s.padStart(n, '0')]. *)
Definition padStart0 (s : jsstring) (n : Z) : jsstring :=
  repeat "0"%char (Z.to_nat (n - Z.of_nat (length s))) ++ s.

(** [s.slice(0, e)]: a negative end counts from the end of the string. *)
Definition slice0 {A : Type} (s : list A) (e : Z) : list A :=
  if e <? 0 then firstn (Z.to_nat (Z.of_nat (length s) + e)) s
  else firstn (Z.to_nat e) s.

(** A byte from its value; only called on values in [0, 256). *)
Definition byte_of_Z (z : Z) : byte :=
  match Byte.of_N (Z.to_N z) with
  | Some b => b
  | None => Byte.x00
  end.

Definition Z_of_byte (b : byte) : Z := Z.of_N (Byte.to_N b).

(** [Buffer.from(hex, 'hex')]: decodes pairs of digits and stops at the first
    pair that is not hexadecimal (or at a trailing single character). *)
Fixpoint Buffer_from_hex (s : jsstring) : Buffer :=
  match s with
  | c1 :: c2 :: rest =>
      match hex_value c1, hex_value c2 with
      | Some h, Some l => byte_of_Z (16 * h + l) :: Buffer_from_hex rest
      | _, _ => []
      end
  | _ => []
  end.

(** [buf.toString('hex')]: two lower-case digits per byte. *)
Definition Buffer_toString_hex (buf : Buffer) : jsstring :=
  flat_map (fun b => [hex_digit (Z_of_byte b / 16); hex_digit (Z_of_byte b mod 16)])
           buf.

(** [BigInt(`0x${hex}`)]: a [SyntaxError] on anything but hexadecimal digits
    (and on the empty digit string). *)
Fixpoint parse_hex (s : jsstring) (acc : Z) : completion Z :=
  match s with
  | [] => Normal acc
  | c :: rest =>
      match hex_value c with
      | Some d => parse_hex rest (16 * acc + d)
      | None => Throw (SyntaxError "Cannot convert to a BigInt"%string)
      end
  end.

Definition BigInt_of_0x (hex : jsstring) : completion Z :=
  match hex with
  | [] => Throw (SyntaxError "Cannot convert 0x to a BigInt"%string)
  | _ => parse_hex hex 0
  end.

(** [toBufferLE] (lines 4-10). *)
Definition toBufferLE (num : Z) (width : Z) : Buffer :=
  let hex := BigInt_toString16 num in
  let buffer := Buffer_from_hex (slice0 (padStart0 hex (width * 2)) (width * 2)) in
  rev buffer.

(** [toBigIntLE] (lines 12-20). *)
Definition toBigIntLE (buf : Buffer) : completion Z :=
  let reversed := rev buf in
  let hex := Buffer_toString_hex reversed in
  if (Z.of_nat (length hex) =? 0) then Normal 0
  else BigInt_of_0x hex.

(* ================================================================== *)
(** * 64-bit helpers (lines 22-25) *)
(* ================================================================== *)

Definition mask64 : Z := Z.shiftl 1 64 - 1.

(** [Rotl64]: note that the source does not truncate the left shift. *)
Definition Rotl64 (a n : Z) : Z :=
  Z.lor (Z.shiftl a n) (Z.shiftr a (64 - n)).

(* ================================================================== *)
(** * The comparison result (lines 27-35) *)
(* ================================================================== *)

Inductive FilterComparison : Type :=
| Incompatible
| None_
| Equal
| Larger
| Smaller
| Inequal.

(** The numeric value of each enumerator. *)
Definition FilterComparison_value (c : FilterComparison) : Z :=
  match c with
  | Incompatible => - 0xff
  | None_ => -1
  | Equal => 0
  | Larger => 1
  | Smaller => 2
  | Inequal => 3
  end.

(* ================================================================== *)
(** * Floating point numbers *)
(* ================================================================== *)

(** [Number(z)] for an integer [z]: the nearest binary64 value, ties to even,
    overflowing to an infinity. *)
Definition Number_of_Z (z : Z) : float :=
  SF2Prim (binary_normalize prec emax z 0 false).

(** [Number.MAX_VALUE]. *)
Definition Number_MAX_VALUE : float := 0x1.fffffffffffffp+1023%float.

(* ================================================================== *)
(** * The filter (lines 37-166) *)
(* ================================================================== *)

(** The fields of the class.  The field [popcnt] is the closure
    [fastpopcnt(BigInt(bits))]; it is determined by [bits] and is modelled by
    the function [popcnt] below. *)
Record BloomFilter : Type := mkBloomFilter {
  bits : Z;
  k : Z;
  filter : Z
}.

Definition set_filter (this : BloomFilter) (f : Z) : BloomFilter :=
  {| bits := bits this; k := k this; filter := f |}.

(** The object a constructor call leaves when it returns (lines 40, 45
    and 46): the two arguments, and [filter = 0n] from the field initialiser.
    The call as a whole, with line 47, is [construct] below. *)
Definition new_BloomFilter (bits k : Z) : BloomFilter :=
  {| bits := bits; k := k; filter := 0 |}.

(** [new BloomFilter(bits, k)] as a call (lines 44-48).  Line 47 asks the
    population-count package for the counter of this width,
    [fastpopcnt(BigInt(bits))]; that call belongs to the package and may
    throw (it does for large widths), and [fastpopcnt_call bits] is its
    completion.  When it returns, the object is [new_BloomFilter bits k]. *)
Definition construct (fastpopcnt_call : Z -> completion unit) (bits k : Z)
  : completion BloomFilter :=
  bind (fastpopcnt_call bits) (fun _ => Normal (new_BloomFilter bits k)).

(** The result of [OptimalParameters]. *)
Record Parameters : Type := mkParameters {
  p_k : float;
  p_bits : float
}.

(** Set-bit count of the low [width] bits of [v]: the meaning the
    specification gives to [PopCount(value, width)]. *)
Fixpoint PopCount (v : Z) (width : nat) : Z :=
  match width with
  | O => 0
  | S w => PopCount v w + (if Z.testbit v (Z.of_nat w) then 1 else 0)
  end.

(** The default parameter [fp = 0.001] of [OptimalParameters]: the value
    of [fp] when the argument is omitted.  The binary64 value of the literal
    is written out. *)
Definition fp_or_default (fp : option float) : float :=
  match fp with
  | Some x => x
  | None => 0x1.0624dd2f1a9fcp-10%float
  end.

(** An operation that mutates the receiver returns its completion together
    with the receiver's state after the call. *)
Definition method (A : Type) : Type := BloomFilter -> completion A * BloomFilter.

Section Filter.

(** The collaborators. *)
Variable XXH64 : Buffer -> Z -> Z.
Variable fastpopcnt : Z -> Z -> Z.
Variable Math_log : float -> float.
Variable Math_pow : float -> float -> float.

(** The body of the [for] loop of [itemHash] (lines 121-126), run [n]
    times; [a % m] raises a [RangeError] when [m] is [0n], and is the
    truncated remainder otherwise. *)
Fixpoint itemHash_loop (n : nat) (m i a delta o : Z) : completion Z :=
  match n with
  | O => Normal o
  | S n' =>
      let delta := delta + i in
      if m =? 0 then Throw (RangeError "Division by zero"%string)
      else
        let bit := Z.rem a m in
        let o := Z.lor o (Z.shiftl 1 bit) in
        let a := Z.land (a + delta) mask64 in
        itemHash_loop n' m (i + 1) a delta o
  end.

(** The state of [a] before the loop (lines 114-117). *)
Definition itemHash_seed (v : item) : Z :=
  let buf := item_bytes v in
  let a := XXH64 buf 0 in
  let a := if a <? 0 then a * -1 else a in
  Z.lxor a 0x6740bca37be0516d.

(** [itemHash] (lines 111-129).  The loop runs while [i < _k], that is
    [max 0 k] times. *)
Definition itemHash (v : item) (bits k : Z) : completion Z :=
  let o := 0 in
  let m := bits in
  let a := itemHash_seed v in
  let delta := Z.lor (Rotl64 a 17) 1 in
  itemHash_loop (Z.to_nat k) m 0 a delta o.

(** [add] (lines 50-52). *)
Definition add (v : item) : method unit := fun this =>
  match itemHash v (bits this) (k this) with
  | Normal l => (Normal tt, set_filter this (Z.lor (filter this) l))
  | Throw e => (Throw e, this)
  end.

(** [test] (lines 54-57). *)
Definition test (v : item) (this : BloomFilter) : completion bool :=
  do l <- itemHash v (bits this) (k this);
  Normal (Z.land (filter this) l =? l).

(** The bound population count of an instance. *)
Definition popcnt (this : BloomFilter) (v : Z) : Z :=
  fastpopcnt (bits this) v.

(** [size] (lines 76-78). *)
Definition size (this : BloomFilter) : float :=
  (- (Number_of_Z (bits this) / Number_of_Z (k this))
   * Math_log (1 - Number_of_Z (popcnt this (filter this)) / Number_of_Z (bits this)))%float.

(** [compare] (lines 59-68); [lsize > rsize] is [rsize < lsize]. *)
Definition compare (this bloom : BloomFilter) : FilterComparison :=
  if negb (k bloom =? k this) || negb (bits bloom =? bits this) then Incompatible
  else if filter this =? filter bloom then Equal
  else
    let lsize := size this in
    let rsize := size bloom in
    if (rsize <? lsize)%float then Larger
    else if (lsize <? rsize)%float then Smaller
    else Inequal.

(** [union] (lines 70-73). *)
Definition union (bloom : BloomFilter) : method unit := fun this =>
  if negb (k bloom =? k this) || negb (bits bloom =? bits this)
  then (Throw (Error "Cannot join bloomfilters, parameters incompatible."%string), this)
  else (Normal tt, set_filter this (Z.lor (filter this) (filter bloom))).

(** [fromBuffer] (lines 80-86), for a constructor call (line 83) that
    returns: the filter it then yields. *)
Definition fromBuffer (buf : Buffer) : completion BloomFilter :=
  do k <- toBigIntLE (firstn 2 buf);
  do ofilter <- toBigIntLE (skipn 2 buf);
  let filter := new_BloomFilter ((Z.of_nat (length buf) - 2) * 8) k in
  Normal (set_filter filter ofilter).

(** [Math.ceil(bits / 8)] on an integer. *)
Definition ceil_div8 (bits : Z) : Z := - ((- bits) / 8).

(** [toBuffer] (lines 88-90). *)
Definition toBuffer (this : BloomFilter) : Buffer :=
  toBufferLE (k this) 2 ++ toBufferLE (filter this) (ceil_div8 (bits this)).

(** One iteration of the [while] loop of [OptimalParameters]
    (lines 147-158) on the triple [(min_m, min_k, k)]. *)
Definition OptimalParameters_step (n fp : float) (st : float * float * float)
  : float * float * float :=
  let '(min_m, min_k, k) := st in
  let numerator := (- k * n)%float in
  let denominator := Math_log (1 - Math_pow fp (1 / k))%float in
  let curr_m := (numerator / denominator)%float in
  if (curr_m <? min_m)%float then (curr_m, k, (k + 1)%float)
  else (min_m, min_k, (k + 1)%float).

(** The [while (k < 1000.0)] loop; [None] when the fuel runs out. *)
Fixpoint OptimalParameters_loop (fuel : nat) (n fp : float)
         (st : float * float * float) : option (float * float) :=
  match fuel with
  | O => None
  | S fuel' =>
      let '(min_m, min_k, k) := st in
      if (k <? 1000)%float
      then OptimalParameters_loop fuel' n fp (OptimalParameters_step n fp st)
      else Some (min_m, min_k)
  end.

(** [OptimalParameters] (lines 139-165); the default of [fp] is [0.001]. *)
Definition OptimalParameters (fuel : nat) (n : float) (fp : option float)
  : option Parameters :=
  let fp := fp_or_default fp in
  match OptimalParameters_loop fuel n fp (Number_MAX_VALUE, 0%float, 1%float) with
  | Some (min_m, min_k) =>
      Some {| p_k := if (min_k <? 1)%float then 1%float else min_k;
              p_bits := if (min_m <? 8)%float then 8%float else min_m |}
  | None => None
  end.

End Filter.

(* ================================================================== *)
(** * The index generator as the specification words it (section 4.1) *)
(* ================================================================== *)

(** A rotation of a 64-bit value: the bits shifted out on the left come back
    on the right. *)
Definition RotateLeft64 (a r : Z) : Z :=
  Z.lor (Z.shiftl a r mod 2 ^ 64) (Z.shiftr a (64 - r)).

(** Step 4 of the specification: the [n] indices recorded from step [i] on. *)
Fixpoint Indices_steps (n : nat) (bits i a delta : Z) : list Z :=
  match n with
  | O => []
  | S n' =>
      let delta := delta + i in
      let bit := a mod bits in
      bit :: Indices_steps n' bits (i + 1) ((a + delta) mod 2 ^ 64) delta
  end.

(** A 64-bit value read as a signed integer (two's complement). *)
Definition signed64 (h : Z) : Z := (h + 2 ^ 63) mod 2 ^ 64 - 2 ^ 63.

(** Steps 1 to 4 as section 4.1 words them, over a hash value
    [h = Hash64(item, seed = 0)]: in step 1 the hash is read as a signed
    64-bit integer, negated if that is negative, and the result is taken as an
    unsigned 64-bit value. *)
Definition Indices (h bits k : Z) : list Z :=
  let s := signed64 h in
  let a := (if s <? 0 then - s else s) mod 2 ^ 64 in
  let a := Z.lxor a 0x6740BCA37BE0516D in
  let delta := Z.lor (RotateLeft64 a 17) 1 in
  Indices_steps (Z.to_nat k) bits 0 a delta.

(** The same steps with step 1 on the hash as the integer it is: it is
    negated only if it is negative itself, and a hash of [2^63] or more is
    used as it is. *)
Definition Indices_raw (h bits k : Z) : list Z :=
  let a := if h <? 0 then - h else h in
  let a := Z.lxor a 0x6740BCA37BE0516D in
  let delta := Z.lor (RotateLeft64 a 17) 1 in
  Indices_steps (Z.to_nat k) bits 0 a delta.

(** Step 5: the indices combined into one bitmask. *)
Definition bitmask_of (l : list Z) : Z :=
  fold_left (fun o bit => Z.lor o (Z.shiftl 1 bit)) l 0.

(* ================================================================== *)
(** * The trace of the source loop *)
(* ================================================================== *)

(** The values the variable [bit] takes in [n] iterations of the loop of
    [itemHash], for a non-zero modulus. *)
Fixpoint itemHash_trace (n : nat) (m i a delta : Z) : list Z :=
  match n with
  | O => []
  | S n' =>
      let delta := delta + i in
      Z.rem a m :: itemHash_trace n' m (i + 1) (Z.land (a + delta) mask64) delta
  end.

(* ================================================================== *)
(** * Sequences of mutating calls *)
(* ================================================================== *)

Inductive call : Type :=
| CallAdd (v : item)
| CallUnion (bloom : BloomFilter).

Section Calls.

Variable XXH64 : Buffer -> Z -> Z.

Definition perform (c : call) : method unit :=
  match c with
  | CallAdd v => add XXH64 v
  | CallUnion bloom => union bloom
  end.

(** Runs the calls in order and stops at the first one that throws. *)
Fixpoint perform_all (cs : list call) : method unit := fun this =>
  match cs with
  | [] => (Normal tt, this)
  | c :: cs' =>
      match perform c this with
      | (Normal _, this') => perform_all cs' this'
      | (Throw e, this') => (Throw e, this')
      end
  end.

(** [collection.map(x => bfilter.add(x))]. *)
Definition add_all (vs : list item) : method unit :=
  perform_all (map CallAdd vs).

End Calls.

(* ================================================================== *)
(** * Definitions used to state the properties *)
(* ================================================================== *)

(** The trace of [itemHash] on an item: the bit index of each of the [k]
    steps, in order. *)
Definition itemHash_steps (XXH64 : Buffer -> Z -> Z) (v : item) (bits k : Z)
  : list Z :=
  let a := itemHash_seed XXH64 v in
  itemHash_trace (Z.to_nat k) bits 0 a (Z.lor (Rotl64 a 17) 1).

(** [x] has no bit outside [y]. *)
Definition subbits (x y : Z) : Prop := Z.land x y = x.

(** The accumulator [o] of the loop after the bits of [l] are set. *)
Definition set_bits (l : list Z) (o : Z) : Z :=
  fold_left (fun o bit => Z.lor o (Z.shiftl 1 bit)) l o.

(** A hexadecimal digit value. *)
Definition is_digit (d : Z) : Prop := 0 <= d < 16.

(** The number a list of digits denotes, most significant digit first. *)
Definition digits_value (ds : list Z) : Z :=
  fold_left (fun acc d => 16 * acc + d) ds 0.

(** The values [k], [k + 1], ... the loop counter takes in [len] rounds. *)
Fixpoint count_from (k : float) (len : nat) : list float :=
  match len with
  | O => []
  | S len' => k :: count_from (k + 1)%float len'
  end.

(** The value of the counter after [len] rounds. *)
Fixpoint count_end (k : float) (len : nat) : float :=
  match len with
  | O => k
  | S len' => count_end (k + 1)%float len'
  end.

(** The integers 1 to 999, as numbers. *)
Definition k_range : list float :=
  map (fun j => Number_of_Z (Z.of_nat j)) (seq 1 999).

Section Search.

Variable Math_log : float -> float.
Variable Math_pow : float -> float -> float.
Variables n fp : float.

(** [m(k) = (-k * n) / ln(1 - fp^(1/k))]. *)
Definition m_of (k : float) : float :=
  ((- k * n) / Math_log (1 - Math_pow fp (1 / k)))%float.

(** Tracking the [k] that minimises [m(k)]: the pair [(m, k)] is replaced
    when [m(k)] is strictly smaller. *)
Definition track_min (best : float * float) (k : float) : float * float :=
  if (m_of k <? fst best)%float then (m_of k, k) else best.

(** The search over a list of candidates, from [(MAX_VALUE, 0)]. *)
Definition search (ks : list float) : float * float :=
  fold_left track_min ks (Number_MAX_VALUE, 0%float).

End Search.


(* ================================================================== *)
(** * Further definitions: masks, well-formed states *)
(* ================================================================== *)

(** The bitmask [itemHash] returns for an item when it returns. *)
Definition item_mask (XXH64 : Buffer -> Z -> Z) (v : item) (bits k : Z) : Z :=
  set_bits (itemHash_steps XXH64 v bits k) 0.

(** The state of a filter fits its width. *)
Definition in_width (this : BloomFilter) : Prop :=
  0 <= filter this < 2 ^ bits this.

(** The argument of a [union] call fits the width of the receiver. *)
Definition call_in_width (width : Z) (c : call) : Prop :=
  match c with
  | CallAdd _ => True
  | CallUnion bloom => 0 <= filter bloom < 2 ^ width
  end.

(** The state after the masks [ms] are OR-ed into [f], in order. *)
Definition lor_all (ms : list Z) (f : Z) : Z := fold_left Z.lor ms f.

(** The number a buffer denotes when read least significant byte first. *)
Definition le_value (buf : Buffer) : Z :=
  fold_right (fun b acc => Z_of_byte b + 256 * acc) 0 buf.

(** The two hexadecimal digits of each byte, in order. *)
Definition byte_digits (buf : Buffer) : list Z :=
  flat_map (fun b => [Z_of_byte b / 16; Z_of_byte b mod 16]) buf.

(** Exchanging the two sides of a comparison. *)
Definition FilterComparison_flip (c : FilterComparison) : FilterComparison :=
  match c with
  | Larger => Smaller
  | Smaller => Larger
  | other => other
  end.

(* ================================================================== *)
(** * Numbers as integers, and [fromCollection] (lines 98-109) *)
(* ================================================================== *)

(** The integer part of a finite number, rounded towards zero; [None] for
    NaN and the infinities. *)
Definition truncate_Number (x : float) : option Z :=
  match Prim2SF x with
  | S754_zero _ => Some 0
  | S754_finite s m e =>
      let mag := if 0 <=? e then Z.pos m * 2 ^ e else Z.pos m / 2 ^ (- e) in
      Some (if s then - mag else mag)
  | _ => None
  end.

(** [ToUint32]: NaN and the infinities give 0, anything else its integer
    part modulo [2^32]. *)
Definition ToUint32 (x : float) : Z :=
  match truncate_Number x with
  | Some z => z mod 2 ^ 32
  | None => 0
  end.

(** The signed reading of a 32-bit pattern. *)
Definition int32_of_bits (z : Z) : Z :=
  let r := z mod 2 ^ 32 in
  if r <? 2 ^ 31 then r else r - 2 ^ 32.

(** [a << x] for a 32-bit integer [a]: the shift count is the low five bits
    of [ToUint32 x]. *)
Definition shift_left32 (a : Z) (x : float) : Z :=
  int32_of_bits (a * 2 ^ Z.land (ToUint32 x) 31).

(** [Math.ceil]: NaN, the zeros, the infinities and the integers are
    returned as they are; a number in [(-1, 0)] gives [-0]. *)
Definition Math_ceil (x : float) : float :=
  match Prim2SF x with
  | S754_finite s m e =>
      if 0 <=? e then x
      else
        let q := Z.pos m / 2 ^ (- e) in
        let exact := Z.pos m mod 2 ^ (- e) =? 0 in
        let z := if s then - q else if exact then q else q + 1 in
        if z =? 0 then (if s then neg_zero else zero) else Number_of_Z z
  | _ => x
  end.

(** [BigInt(x)] on a number: a [RangeError] unless [x] is an integer. *)
Definition BigInt_of_Number (x : float) : completion Z :=
  match Prim2SF x with
  | S754_zero _ => Normal 0
  | S754_finite s m e =>
      if 0 <=? e then Normal ((if s then -1 else 1) * (Z.pos m * 2 ^ e))
      else if Z.pos m mod 2 ^ (- e) =? 0
           then Normal ((if s then -1 else 1) * (Z.pos m / 2 ^ (- e)))
           else Throw (RangeError "The number cannot be converted to a BigInt because it is not an integer")
  | _ => Throw (RangeError "The number cannot be converted to a BigInt because it is not an integer")
  end.

(** [Math.round] on a number that holds a 32-bit integer. *)
Definition Math_round_int32 (z : Z) : Z := z.

Section FromCollection.

Variable XXH64 : Buffer -> Z -> Z.
Variable Math_log : float -> float.
Variable Math_pow : float -> float -> float.
Variable Math_log2 : float -> float.
Variable fastpopcnt_call : Z -> completion unit.

(** [fromCollection] (lines 98-109).  The class keeps [k] as an integer
    here, so the number [k] of [OptimalParameters] is converted where the
    filter is built, with the [BigInt(k)] that every [add] applies to it; the
    constructor call of line 105 can throw, and so can each [add]. *)
Definition fromCollection (fuel : nat) (collection : list item)
  : option (completion BloomFilter) :=
  match OptimalParameters Math_log Math_pow fuel
          (Number_of_Z (Z.of_nat (length collection))) None with
  | None => None
  | Some p =>
      let bits := shift_left32 1 (Math_ceil (Math_log2 (p_bits p))) in
      Some (do k <- BigInt_of_Number (p_k p);
            do bfilter <- construct fastpopcnt_call (Math_round_int32 bits) k;
            match add_all XXH64 collection bfilter with
            | (Normal _, bfilter') => Normal bfilter'
            | (Throw e, bfilter') => Throw e
            end)
  end.

End FromCollection.

(* ================================================================== *)
(** * Concrete collaborators for the examples *)
(* ================================================================== *)

(** FNV-1a over 64 bits: a deterministic hash with values in [0, 2^64). *)
Definition fnv1a64 (buf : Buffer) (seed : Z) : Z :=
  fold_left (fun h b => (Z.lxor h (Z_of_byte b) * 0x100000001b3) mod 2 ^ 64)
            buf ((0xcbf29ce484222325 + seed) mod 2 ^ 64).


(** A monotone stand-in for the logarithm: [1 - 1/x] vanishes at [1] and is
    minus infinity at [0]. *)
Definition log_lower (x : float) : float := (1 - 1 / x)%float.

(** A stand-in for the power function, for the examples only. *)
Definition pow_stub (x y : float) : float := (x * y)%float.

(* ================================================================== *)
(** * Bit-level lemmas *)
(* ================================================================== *)

Lemma testbit_one_shiftl b j :
  0 <= b -> Z.testbit (Z.shiftl 1 b) j = (j =? b).
Proof.
  intros Hb. rewrite Z.shiftl_1_l, Z.pow2_bits_eqb by lia. apply Z.eqb_sym.
Qed.

Lemma subbits_testbit x y :
  subbits x y <-> forall j, Z.testbit x j = true -> Z.testbit y j = true.
Proof.
  unfold subbits. split.
  - intros H j Hj. rewrite <- H, Z.land_spec in Hj.
    apply andb_true_iff in Hj. tauto.
  - intros H. apply Z.bits_inj'. intros j _. rewrite Z.land_spec.
    destruct (Z.testbit x j) eqn:E; [rewrite (H j E)|]; reflexivity.
Qed.

Lemma subbits_refl x : subbits x x.
Proof. apply Z.land_diag. Qed.

Lemma subbits_trans x y z : subbits x y -> subbits y z -> subbits x z.
Proof. rewrite !subbits_testbit. auto. Qed.

Lemma subbits_lor_l x y : subbits x (Z.lor x y).
Proof.
  apply subbits_testbit. intros j Hj. rewrite Z.lor_spec, Hj. reflexivity.
Qed.

Lemma subbits_lor_r x y : subbits y (Z.lor x y).
Proof.
  apply subbits_testbit. intros j Hj. rewrite Z.lor_spec, Hj. apply orb_true_r.
Qed.

Lemma bits_below x m :
  0 <= x -> 0 <= m -> (forall j, Z.testbit x j = true -> j < m) -> x < 2 ^ m.
Proof.
  intros Hx Hm H. destruct (Z.eq_dec x 0) as [->|Hne].
  - apply Z.pow_pos_nonneg; lia.
  - apply Z.log2_lt_pow2; [lia|]. apply H, Z.bit_log2. lia.
Qed.

Lemma PopCount_nonneg v w : 0 <= PopCount v w.
Proof.
  induction w as [|w IH]; simpl; [lia|].
  destruct (Z.testbit v (Z.of_nat w)); lia.
Qed.


Lemma PopCount_mono x y w : subbits x y -> PopCount x w <= PopCount y w.
Proof.
  rewrite subbits_testbit. intros H.
  induction w as [|w IH]; cbn [PopCount]; [lia|].
  destruct (Z.testbit x (Z.of_nat w)) eqn:E.
  - rewrite (H _ E). lia.
  - destruct (Z.testbit y (Z.of_nat w)); lia.
Qed.

Lemma PopCount_pos x w j :
  0 <= j < Z.of_nat w -> Z.testbit x j = true -> 1 <= PopCount x w.
Proof.
  induction w as [|w IH]; intros Hj Hb; [lia|].
  cbn [PopCount]. destruct (Z.eq_dec j (Z.of_nat w)) as [->|Hne].
  - rewrite Hb. pose proof (PopCount_nonneg x w). lia.
  - assert (1 <= PopCount x w) by (apply IH; [lia|assumption]).
    destruct (Z.testbit x (Z.of_nat w)); lia.
Qed.

Lemma PopCount_set_bit o b w :
  0 <= b ->
  PopCount (Z.lor o (Z.shiftl 1 b)) w =
  PopCount o w + (if (b <? Z.of_nat w) && negb (Z.testbit o b) then 1 else 0).
Proof.
  intros Hb. induction w as [|w IH].
  - simpl. replace (b <? 0) with false by (symmetry; apply Z.ltb_ge; lia).
    reflexivity.
  - cbn [PopCount]. rewrite IH, Z.lor_spec, testbit_one_shiftl by assumption.
    destruct (Z.eqb_spec (Z.of_nat w) b) as [<-|Hne].
    + replace (Z.of_nat w <? Z.of_nat w) with false
        by (symmetry; apply Z.ltb_irrefl).
      replace (Z.of_nat w <? Z.of_nat (S w)) with true
        by (symmetry; apply Z.ltb_lt; lia).
      destruct (Z.testbit o (Z.of_nat w)); simpl; lia.
    + rewrite orb_false_r.
      destruct (Z.ltb_spec b (Z.of_nat w)), (Z.ltb_spec b (Z.of_nat (S w)));
        try lia; reflexivity.
Qed.

Lemma PopCount_set_bit_le o b w :
  0 <= b -> PopCount (Z.lor o (Z.shiftl 1 b)) w <= PopCount o w + 1.
Proof.
  intros Hb. rewrite PopCount_set_bit by assumption.
  destruct (_ && _); lia.
Qed.

(* ================================================================== *)
(** * The loop of [itemHash] *)
(* ================================================================== *)

Lemma itemHash_loop_trace n : forall m i a delta o,
  m <> 0 ->
  itemHash_loop n m i a delta o = Normal (set_bits (itemHash_trace n m i a delta) o).
Proof.
  induction n as [|n IH]; intros m i a delta o Hm; [reflexivity|].
  cbn [itemHash_loop itemHash_trace]. cbv zeta.
  destruct (Z.eqb_spec m 0) as [E|_]; [contradiction|].
  rewrite IH by assumption. reflexivity.
Qed.

Lemma mask64_nonneg : 0 <= mask64.
Proof. vm_compute. discriminate. Qed.

Lemma itemHash_trace_length n : forall m i a delta,
  length (itemHash_trace n m i a delta) = n.
Proof.
  induction n as [|n IH]; intros; simpl; [reflexivity|]. rewrite IH. reflexivity.
Qed.

Lemma itemHash_trace_range n : forall m i a delta,
  0 < m -> 0 <= a ->
  Forall (fun bit => 0 <= bit < m) (itemHash_trace n m i a delta).
Proof.
  induction n as [|n IH]; intros m i a delta Hm Ha; simpl; constructor.
  - apply Z.rem_bound_pos; lia.
  - apply IH; [assumption|]. apply Z.land_nonneg. right. apply mask64_nonneg.
Qed.

Lemma set_bits_testbit l : forall o j,
  Forall (fun bit => 0 <= bit) l ->
  Z.testbit (set_bits l o) j = Z.testbit o j || existsb (Z.eqb j) l.
Proof.
  induction l as [|b l IH]; intros o j Hl; simpl.
  - symmetry. apply orb_false_r.
  - inversion Hl as [|? ? Hb Hl']; subst.
    unfold set_bits in *. rewrite IH by assumption.
    rewrite Z.lor_spec, testbit_one_shiftl by assumption.
    symmetry. apply orb_assoc.
Qed.

Lemma set_bits_nonneg l : forall o,
  Forall (fun bit => 0 <= bit) l -> 0 <= o -> 0 <= set_bits l o.
Proof.
  induction l as [|b l IH]; intros o Hl Ho; simpl; [assumption|].
  inversion Hl as [|? ? Hb Hl']; subst. apply IH; [assumption|].
  apply Z.lor_nonneg. split; [assumption|]. apply Z.shiftl_nonneg. lia.
Qed.

Lemma set_bits_PopCount l : forall o w,
  Forall (fun bit => 0 <= bit) l ->
  PopCount (set_bits l o) w <= PopCount o w + Z.of_nat (length l).
Proof.
  induction l as [|b l IH]; intros o w Hl; [simpl; lia|].
  inversion Hl as [|? ? Hb Hl']; subst.
  change (set_bits (b :: l) o) with (set_bits l (Z.lor o (Z.shiftl 1 b))).
  specialize (IH (Z.lor o (Z.shiftl 1 b)) w Hl').
  pose proof (PopCount_set_bit_le o b w Hb).
  cbn [length]. lia.
Qed.

Lemma existsb_eqb_In j l : existsb (Z.eqb j) l = true <-> In j l.
Proof.
  rewrite existsb_exists. split.
  - intros (x & Hx & E). apply Z.eqb_eq in E. subst. assumption.
  - intros H. exists j. split; [assumption|apply Z.eqb_refl].
Qed.

Lemma Forall_range_nonneg m l :
  Forall (fun bit => 0 <= bit < m) l -> Forall (fun bit => 0 <= bit) l.
Proof. apply Forall_impl. intros; lia. Qed.

Section IndexGenerator.

Variable XXH64 : Buffer -> Z -> Z.

Lemma itemHash_seed_nonneg v : 0 <= itemHash_seed XXH64 v.
Proof.
  unfold itemHash_seed. apply Z.lxor_nonneg.
  destruct (Z.ltb_spec (XXH64 (item_bytes v) 0) 0); split; intros; try lia;
    vm_compute; discriminate.
Qed.

Lemma itemHash_normal v bits k :
  bits <> 0 ->
  itemHash XXH64 v bits k = Normal (set_bits (itemHash_steps XXH64 v bits k) 0).
Proof. intros Hb. unfold itemHash. apply itemHash_loop_trace. assumption. Qed.

Lemma itemHash_steps_length v bits k :
  length (itemHash_steps XXH64 v bits k) = Z.to_nat k.
Proof. apply itemHash_trace_length. Qed.

Lemma itemHash_steps_range v bits k :
  0 < bits ->
  Forall (fun bit => 0 <= bit < bits) (itemHash_steps XXH64 v bits k).
Proof.
  intros Hb. apply itemHash_trace_range; [assumption|].
  apply itemHash_seed_nonneg.
Qed.

End IndexGenerator.

(* ================================================================== *)
(** * The index-range contract of [itemHash] *)
(* ================================================================== *)

(** C8.  For every hash collaborator, every item [v] and all integers
    [bits >= 1] and [k >= 1], [itemHash v bits k] returns a bitmask [o] below
    [2^bits]: every set bit lies at a position in [[0, bits)], and at least
    one and at most [k] bits are set.  The mask is the set of the [k] bit
    indices of the loop: steps that collide are not deduplicated, they leave
    the one bit set. *)
Theorem itemHash_index_range (XXH64 : Buffer -> Z -> Z) (v : item) (bits k : Z) :
  1 <= bits -> 1 <= k ->
  exists o,
    itemHash XXH64 v bits k = Normal o /\
    0 <= o < 2 ^ bits /\
    (forall j, Z.testbit o j = true -> 0 <= j < bits) /\
    1 <= PopCount o (Z.to_nat bits) <= k /\
    length (itemHash_steps XXH64 v bits k) = Z.to_nat k /\
    (forall j, Z.testbit o j = true <-> In j (itemHash_steps XXH64 v bits k)).
Proof.
  intros Hbits Hk.
  pose proof (itemHash_steps_range XXH64 v bits k ltac:(lia)) as Hrange.
  pose proof (Forall_range_nonneg _ _ Hrange) as Hnn.
  pose proof (itemHash_steps_length XXH64 v bits k) as Hlen.
  set (steps := itemHash_steps XXH64 v bits k) in *.
  assert (Hbit : forall j, Z.testbit (set_bits steps 0) j = true <-> In j steps).
  { intros j. rewrite set_bits_testbit, Z.bits_0 by assumption.
    apply existsb_eqb_In. }
  assert (Hin : forall j, Z.testbit (set_bits steps 0) j = true -> 0 <= j < bits).
  { intros j Hj. apply Hbit in Hj. rewrite Forall_forall in Hrange. auto. }
  exists (set_bits steps 0). repeat split.
  - apply itemHash_normal. lia.
  - apply set_bits_nonneg; [assumption|lia].
  - apply bits_below; [apply set_bits_nonneg; [assumption|lia] | lia |].
    intros j Hj. apply Hin in Hj. lia.
  - apply Hin. assumption.
  - apply Hin. assumption.
  - destruct steps as [|b rest] eqn:E; [simpl in Hlen; lia|].
    apply (PopCount_pos _ _ b).
    + inversion Hrange; subst. lia.
    + apply Hbit. left. reflexivity.
  - pose proof (set_bits_PopCount steps 0 (Z.to_nat bits) Hnn) as Hc.
    assert (PopCount 0 (Z.to_nat bits) <= 0).
    { clear. induction (Z.to_nat bits) as [|w IH]; cbn [PopCount]; [lia|].
      rewrite Z.bits_0. lia. }
    lia.
  - assumption.
  - apply Hbit.
  - apply Hbit.
Qed.

Lemma itemHash_index_range_witness :
  1 <= 64 /\ 1 <= 4 /\
  exists o,
    itemHash fnv1a64 (ItemString "alpha") 64 4 = Normal o /\
    0 <= o < 2 ^ 64 /\
    (forall j, Z.testbit o j = true -> 0 <= j < 64) /\
    1 <= PopCount o (Z.to_nat 64) <= 4 /\
    length (itemHash_steps fnv1a64 (ItemString "alpha") 64 4) = Z.to_nat 4 /\
    (forall j, Z.testbit o j = true <->
               In j (itemHash_steps fnv1a64 (ItemString "alpha") 64 4)).
Proof.
  split; [lia|]. split; [lia|].
  apply (itemHash_index_range fnv1a64 (ItemString "alpha") 64 4); lia.
Defined.

(* ================================================================== *)
(** * Invariants of the mutating calls *)
(* ================================================================== *)

Section Growth.

Variable XXH64 : Buffer -> Z -> Z.

Lemma add_params v this :
  bits (snd (add XXH64 v this)) = bits this /\
  k (snd (add XXH64 v this)) = k this.
Proof. unfold add. destruct (itemHash _ _ _ _); simpl; auto. Qed.

Lemma add_subbits v this :
  subbits (filter this) (filter (snd (add XXH64 v this))).
Proof.
  unfold add. destruct (itemHash _ _ _ _); simpl.
  - apply subbits_lor_l.
  - apply subbits_refl.
Qed.

Lemma union_params bloom this :
  bits (snd (union bloom this)) = bits this /\
  k (snd (union bloom this)) = k this.
Proof. unfold union. destruct (_ || _); simpl; auto. Qed.

Lemma union_subbits bloom this :
  subbits (filter this) (filter (snd (union bloom this))).
Proof.
  unfold union. destruct (_ || _); simpl.
  - apply subbits_refl.
  - apply subbits_lor_l.
Qed.

Lemma perform_params c this :
  bits (snd (perform XXH64 c this)) = bits this /\
  k (snd (perform XXH64 c this)) = k this.
Proof. destruct c; [apply add_params|apply union_params]. Qed.

Lemma perform_subbits c this :
  subbits (filter this) (filter (snd (perform XXH64 c this))).
Proof. destruct c; [apply add_subbits|apply union_subbits]. Qed.

Lemma perform_all_params cs : forall this,
  bits (snd (perform_all XXH64 cs this)) = bits this /\
  k (snd (perform_all XXH64 cs this)) = k this.
Proof.
  induction cs as [|c cs IH]; intros this; simpl; [auto|].
  pose proof (perform_params c this) as Hp.
  destruct (perform XXH64 c this) as [[[]|e] this']; simpl in *.
  - destruct (IH this') as [-> ->]. assumption.
  - assumption.
Qed.

Lemma perform_all_subbits cs : forall this,
  subbits (filter this) (filter (snd (perform_all XXH64 cs this))).
Proof.
  induction cs as [|c cs IH]; intros this; simpl; [apply subbits_refl|].
  pose proof (perform_subbits c this) as Hp.
  destruct (perform XXH64 c this) as [[[]|e] this']; simpl in *.
  - eapply subbits_trans; [exact Hp|apply IH].
  - assumption.
Qed.

(** Adding to a filter of non-zero width always returns. *)
Lemma add_returns v this :
  bits this <> 0 ->
  add XXH64 v this =
  (Normal tt,
   set_filter this
     (Z.lor (filter this)
            (set_bits (itemHash_steps XXH64 v (bits this) (k this)) 0))).
Proof. intros Hb. unfold add. rewrite itemHash_normal by assumption. reflexivity. Qed.

(** [test] answers [true] as soon as the mask of the item is in the state. *)
Lemma test_of_subbits v this :
  bits this <> 0 ->
  subbits (set_bits (itemHash_steps XXH64 v (bits this) (k this)) 0) (filter this) ->
  test XXH64 v this = Normal true.
Proof.
  intros Hb Hs. unfold test. rewrite itemHash_normal by assumption. simpl.
  unfold subbits in Hs. rewrite Z.land_comm, Hs, Z.eqb_refl. reflexivity.
Qed.

End Growth.

(** C1.  No false negatives: on a filter with [bits >= 1] and [k >= 1],
    [add x] returns, [test x] is then [true], and it is still [true] after
    any further sequence of [add] and [union] calls that all return. *)
Theorem no_false_negatives (XXH64 : Buffer -> Z -> Z) (this : BloomFilter) (x : item) :
  1 <= bits this -> 1 <= k this ->
  exists this1,
    add XXH64 x this = (Normal tt, this1) /\
    test XXH64 x this1 = Normal true /\
    forall cs this2,
      perform_all XXH64 cs this1 = (Normal tt, this2) ->
      test XXH64 x this2 = Normal true.
Proof.
  intros Hbits Hk. eexists. split; [apply add_returns; lia|].
  set (l := set_bits (itemHash_steps XXH64 x (bits this) (k this)) 0).
  set (this1 := set_filter this (Z.lor (filter this) l)).
  assert (H1 : subbits l (filter this1)) by apply subbits_lor_r.
  split.
  - apply test_of_subbits; [simpl; lia|exact H1].
  - intros cs this2 Hrun.
    pose proof (perform_all_params XXH64 cs this1) as [Hb Hkk].
    pose proof (perform_all_subbits XXH64 cs this1) as Hs.
    rewrite Hrun in Hb, Hkk, Hs. simpl in Hb, Hkk, Hs.
    apply test_of_subbits; [lia|].
    rewrite Hb, Hkk. eapply subbits_trans; [exact H1|exact Hs].
Qed.

Lemma no_false_negatives_witness :
  let this := new_BloomFilter 64 4 in
  1 <= bits this /\ 1 <= k this /\
  exists this1,
    add fnv1a64 (ItemString "alpha") this = (Normal tt, this1) /\
    test fnv1a64 (ItemString "alpha") this1 = Normal true /\
    forall cs this2,
      perform_all fnv1a64 cs this1 = (Normal tt, this2) ->
      test fnv1a64 (ItemString "alpha") this2 = Normal true.
Proof.
  intros this. split; [simpl; lia|]. split; [simpl; lia|].
  apply (no_false_negatives fnv1a64 this (ItemString "alpha")); simpl; lia.
Defined.

(** C7.  Monotone growth: a new filter is all-zero, and every [add] and
    every [union] (whether it returns or throws) leaves a state [s'] with
    [s AND s' = s] for the state [s] before the call, so no population count
    decreases; the same holds across any sequence of calls. *)
Theorem monotone_growth (XXH64 : Buffer -> Z -> Z) :
  (forall bits k, filter (new_BloomFilter bits k) = 0) /\
  (forall v this,
      let s := filter this in
      let s' := filter (snd (add XXH64 v this)) in
      Z.land s s' = s /\ forall w, PopCount s w <= PopCount s' w) /\
  (forall bloom this,
      let s := filter this in
      let s' := filter (snd (union bloom this)) in
      Z.land s s' = s /\ forall w, PopCount s w <= PopCount s' w) /\
  (forall cs this,
      let s := filter this in
      let s' := filter (snd (perform_all XXH64 cs this)) in
      Z.land s s' = s /\ forall w, PopCount s w <= PopCount s' w).
Proof.
  split; [reflexivity|].
  split; [|split]; intros; subst s s'.
  - pose proof (add_subbits XXH64 v this) as H.
    split; [exact H|intros w; apply PopCount_mono; exact H].
  - pose proof (union_subbits bloom this) as H.
    split; [exact H|intros w; apply PopCount_mono; exact H].
  - pose proof (perform_all_subbits XXH64 cs this) as H.
    split; [exact H|intros w; apply PopCount_mono; exact H].
Qed.

(* ================================================================== *)
(** * [union] *)
(* ================================================================== *)

(** C4.  [union other] throws exactly when [(other.bits, other.k)] differs
    from [(this.bits, this.k)]; when it throws, the receiver is unchanged, and
    otherwise it returns and the state becomes [state | other.state] (with
    [bits] and [k] untouched). *)
Theorem union_parameter_mismatch (bloom this : BloomFilter) :
  ((exists e, fst (union bloom this) = Throw e) <->
   (bits bloom, k bloom) <> (bits this, k this)) /\
  ((bits bloom, k bloom) <> (bits this, k this) ->
   union bloom this =
   (Throw (Error "Cannot join bloomfilters, parameters incompatible."), this)) /\
  ((bits bloom, k bloom) = (bits this, k this) ->
   union bloom this =
   (Normal tt,
    {| bits := bits this; k := k this;
       filter := Z.lor (filter this) (filter bloom) |})).
Proof.
  unfold union.
  destruct (Z.eqb_spec (k bloom) (k this)) as [Hk|Hk];
    destruct (Z.eqb_spec (bits bloom) (bits this)) as [Hb|Hb]; simpl.
  - rewrite Hk, Hb. repeat split.
    + intros [e He]. discriminate.
    + intros H. contradiction H. reflexivity.
    + intros H. contradiction H. reflexivity.
  - repeat split.
    + intros _ H. inversion H. contradiction.
    + intros _. eexists. reflexivity.
    + intros H. inversion H. contradiction.
  - repeat split.
    + intros _ H. inversion H. contradiction.
    + intros _. eexists. reflexivity.
    + intros H. inversion H. contradiction.
  - repeat split.
    + intros _ H. inversion H. contradiction.
    + intros _. eexists. reflexivity.
    + intros H. inversion H. contradiction.
Qed.

(* ================================================================== *)
(** * The double-hash scheme *)
(* ================================================================== *)

Lemma mask64_ones : mask64 = Z.ones 64.
Proof. reflexivity. Qed.

Lemma land_mask64 x : Z.land x mask64 = x mod 2 ^ 64.
Proof. rewrite mask64_ones. apply Z.land_ones. lia. Qed.

(** On 64-bit values [RotateLeft64] is a rotation: bit [j] of the result is
    bit [j - r] of the argument, counted modulo 64. *)
Lemma RotateLeft64_spec a r j :
  0 <= a < 2 ^ 64 -> 0 < r < 64 -> 0 <= j < 64 ->
  Z.testbit (RotateLeft64 a r) j = Z.testbit a ((j - r) mod 64).
Proof.
  intros Ha Hr Hj. unfold RotateLeft64.
  rewrite Z.lor_spec, Z.mod_pow2_bits_low, Z.shiftl_spec, Z.shiftr_spec by lia.
  destruct (Z.ltb_spec j r) as [Hlt|Hge].
  - rewrite (Z.testbit_neg_r a (j - r)) by lia. rewrite orb_false_l. f_equal.
    replace (j - r) with (j + (64 - r) + (-1) * 64) by lia.
    rewrite Z.mod_add, Z.mod_small by lia. reflexivity.
  - replace (Z.testbit a (j + (64 - r))) with false.
    + rewrite orb_false_r. f_equal. symmetry. apply Z.mod_small. lia.
    + symmetry. destruct (Z.eq_dec a 0) as [->|Hne]; [apply Z.bits_0|].
      apply Z.bits_above_log2; [lia|].
      assert (Z.log2 a < 64) by (apply Z.log2_lt_pow2; lia). lia.
Qed.

Lemma RotateLeft64_range a r :
  0 <= a < 2 ^ 64 -> 0 < r < 64 -> 0 <= RotateLeft64 a r < 2 ^ 64.
Proof.
  intros Ha Hr. unfold RotateLeft64.
  assert (H1 : 0 <= Z.shiftl a r mod 2 ^ 64 < 2 ^ 64) by (apply Z.mod_pos_bound; lia).
  assert (H2 : 0 <= Z.shiftr a (64 - r)) by (apply Z.shiftr_nonneg; lia).
  split; [apply Z.lor_nonneg; lia|].
  apply bits_below; [apply Z.lor_nonneg; lia|lia|].
  intros j Hj. destruct (Z.ltb_spec j 64) as [|Hge]; [assumption|exfalso].
  rewrite Z.lor_spec, Z.mod_pow2_bits_high, Z.shiftr_spec in Hj by lia.
  rewrite orb_false_l in Hj. destruct (Z.eq_dec a 0) as [->|Hne].
  - rewrite Z.bits_0 in Hj. discriminate.
  - rewrite Z.bits_above_log2 in Hj; [discriminate|lia|].
    assert (Z.log2 a < 64) by (apply Z.log2_lt_pow2; lia). lia.
Qed.

(** The source's [Rotl64] keeps the bits shifted out on the left; modulo
    [2^64] it agrees with the rotation. *)
Lemma Rotl64_mod a r :
  0 <= r -> Rotl64 a r mod 2 ^ 64 = RotateLeft64 a r mod 2 ^ 64.
Proof.
  intros Hr. unfold Rotl64, RotateLeft64.
  rewrite <- !Z.land_ones, !Z.land_lor_distr_l by lia.
  rewrite <- Z.land_assoc, Z.land_diag. reflexivity.
Qed.

Lemma lor_one_mod x y :
  x mod 2 ^ 64 = y mod 2 ^ 64 -> Z.lor x 1 mod 2 ^ 64 = Z.lor y 1 mod 2 ^ 64.
Proof.
  intros H. rewrite <- !Z.land_ones, !Z.land_lor_distr_l by lia.
  rewrite !Z.land_ones, H by lia. reflexivity.
Qed.

Lemma itemHash_trace_Indices n : forall m i a d1 d2,
  0 < m -> 0 <= a ->
  d1 mod 2 ^ 64 = d2 mod 2 ^ 64 ->
  itemHash_trace n m i a d1 = Indices_steps n m i a d2.
Proof.
  induction n as [|n IH]; intros m i a d1 d2 Hm Ha Hd; [reflexivity|].
  cbn [itemHash_trace Indices_steps]. cbv zeta.
  assert (Hd' : (d1 + i) mod 2 ^ 64 = (d2 + i) mod 2 ^ 64).
  { rewrite (Z.add_mod d1), (Z.add_mod d2), Hd by lia. reflexivity. }
  assert (Ha' : Z.land (a + (d1 + i)) mask64 = (a + (d2 + i)) mod 2 ^ 64).
  { rewrite land_mask64, (Z.add_mod a (d1 + i)), (Z.add_mod a (d2 + i)), Hd' by lia.
    reflexivity. }
  rewrite Z.rem_mod_nonneg by lia. f_equal.
  rewrite Ha'. apply IH; [assumption| |exact Hd'].
  apply Z.mod_pos_bound. lia.
Qed.

Lemma Indices_raw_signed h bits k :
  - 2 ^ 63 <= h < 2 ^ 63 -> Indices_raw h bits k = Indices h bits k.
Proof.
  intros Hh. unfold Indices_raw, Indices, signed64.
  rewrite (Z.mod_small (h + 2 ^ 63)) by lia.
  replace (h + 2 ^ 63 - 2 ^ 63) with h by lia.
  rewrite (Z.mod_small (if h <? 0 then - h else h)); [reflexivity|].
  destruct (Z.ltb_spec h 0); lia.
Qed.

(** C2, as the code has it.  For a width [bits >= 1], [itemHash] on a
    string hashes its bytes and on a buffer the buffer, with seed 0, and
    returns the bitmask of the indices of the double-hash scheme with step 1
    read on the hash as the integer it is: [a] is the hash, negated only if
    it is negative itself, XORed with [0x6740BCA37BE0516D]; [delta] is
    [RotateLeft64 a 17 | 1]; step [i] adds [i] to [delta], records
    [a mod bits] and replaces [a] by [(a + delta) mod 2^64].  This is the
    scheme of section 4.1 whenever the hash is its own signed 64-bit
    reading. *)
Theorem itemHash_double_hash (XXH64 : Buffer -> Z -> Z) (bits k : Z) :
  1 <= bits ->
  (forall s : string,
      itemHash XXH64 (ItemString s) bits k =
      Normal (bitmask_of (Indices_raw (XXH64 (list_byte_of_string s) 0) bits k))) /\
  (forall b : Buffer,
      itemHash XXH64 (ItemBuffer b) bits k =
      Normal (bitmask_of (Indices_raw (XXH64 b 0) bits k))) /\
  (forall h, - 2 ^ 63 <= h < 2 ^ 63 -> Indices_raw h bits k = Indices h bits k).
Proof.
  intros Hbits.
  assert (H : forall v buf, item_bytes v = buf ->
                itemHash XXH64 v bits k =
                Normal (bitmask_of (Indices_raw (XXH64 buf 0) bits k))).
  { intros v buf Hbuf. rewrite itemHash_normal by lia.
    unfold bitmask_of, set_bits, itemHash_steps, Indices_raw. do 2 f_equal.
    assert (Hseed : itemHash_seed XXH64 v =
                    Z.lxor (if XXH64 buf 0 <? 0 then - XXH64 buf 0 else XXH64 buf 0)
                           0x6740BCA37BE0516D).
    { unfold itemHash_seed. rewrite Hbuf.
      destruct (_ <? 0); [rewrite <- Z.opp_eq_mul_m1|]; reflexivity. }
    rewrite <- Hseed.
    apply itemHash_trace_Indices; [lia|apply itemHash_seed_nonneg|].
    apply lor_one_mod, Rotl64_mod. lia. }
  split; [|split].
  - intros s. apply H. reflexivity.
  - intros b. apply H. reflexivity.
  - intros h Hh. apply Indices_raw_signed. exact Hh.
Qed.

Lemma itemHash_double_hash_witness :
  1 <= 64 /\
  (forall s : string,
      itemHash fnv1a64 (ItemString s) 64 4 =
      Normal (bitmask_of (Indices_raw (fnv1a64 (list_byte_of_string s) 0) 64 4))) /\
  (forall b : Buffer,
      itemHash fnv1a64 (ItemBuffer b) 64 4 =
      Normal (bitmask_of (Indices_raw (fnv1a64 b 0) 64 4))) /\
  (forall h, - 2 ^ 63 <= h < 2 ^ 63 -> Indices_raw h 64 4 = Indices h 64 4).
Proof.
  split; [lia|].
  apply (itemHash_double_hash fnv1a64 64 4). lia.
Defined.

(** C2 as stated fails where the hash has its top bit set: the code does
    not negate it, the scheme of section 4.1 does.  With [bits = 64] and
    [k = 4]: for a hash that returns [14364478406410262600] the code gives
    the mask [1152921642049995008], the scheme of section 4.1
    [4503668348944448]; and the two differ on the item ["alpha"] under the
    FNV hash, whose value [9999721509958787115] has the top bit set too. *)
Lemma itemHash_signed_counterexample :
  (2 ^ 63 <= 14364478406410262600 < 2 ^ 64 /\
   itemHash (fun _ _ => 14364478406410262600) (ItemString "alpha") 64 4 =
   Normal 1152921642049995008 /\
   bitmask_of (Indices 14364478406410262600 64 4) = 4503668348944448 /\
   itemHash (fun _ _ => 14364478406410262600) (ItemString "alpha") 64 4 <>
   Normal (bitmask_of (Indices 14364478406410262600 64 4))) /\
  (fnv1a64 (list_byte_of_string "alpha") 0 = 9999721509958787115 /\
   itemHash fnv1a64 (ItemString "alpha") 64 4 <>
   Normal (bitmask_of (Indices (fnv1a64 (list_byte_of_string "alpha") 0) 64 4))).
Proof.
  split; [split; [|split; [|split]]|split].
  - vm_compute. split; [discriminate|reflexivity].
  - vm_compute. reflexivity.
  - vm_compute. reflexivity.
  - vm_compute. discriminate.
  - vm_compute. reflexivity.
  - vm_compute. discriminate.
Qed.

(* ================================================================== *)
(** * Serialisation *)
(* ================================================================== *)

Lemma hex_value_digit d : is_digit d -> hex_value (hex_digit d) = Some d.
Proof.
  unfold is_digit. intros Hd.
  assert (H : d = 0 \/ d = 1 \/ d = 2 \/ d = 3 \/ d = 4 \/ d = 5 \/ d = 6 \/
              d = 7 \/ d = 8 \/ d = 9 \/ d = 10 \/ d = 11 \/ d = 12 \/
              d = 13 \/ d = 14 \/ d = 15) by lia.
  repeat (destruct H as [->|H]; [reflexivity|]). subst. reflexivity.
Qed.

Lemma Z_of_byte_of_Z z : 0 <= z < 256 -> Z_of_byte (byte_of_Z z) = z.
Proof.
  intros Hz. unfold Z_of_byte, byte_of_Z.
  destruct (Byte.of_N (Z.to_N z)) as [b|] eqn:E.
  - apply Byte.to_of_N in E. rewrite E. apply Z2N.id. lia.
  - apply Byte.of_N_None_iff in E. lia.
Qed.

Lemma hex_digits_app fuel : forall n acc,
  hex_digits fuel n acc = hex_digits fuel n [] ++ acc.
Proof.
  induction fuel as [|fuel IH]; intros n acc; simpl; [reflexivity|].
  destruct (n =? 0); [reflexivity|].
  rewrite (IH _ (_ :: acc)), (IH _ [_]), <- app_assoc. reflexivity.
Qed.

Lemma hex_digits_range fuel : forall n acc,
  Forall is_digit acc -> Forall is_digit (hex_digits fuel n acc).
Proof.
  induction fuel as [|fuel IH]; intros n acc Hacc; simpl; [assumption|].
  destruct (n =? 0); [assumption|]. apply IH. constructor; [|assumption].
  apply Z.mod_pos_bound. lia.
Qed.

Lemma digits_value_snoc ds d : digits_value (ds ++ [d]) = 16 * digits_value ds + d.
Proof. unfold digits_value. rewrite fold_left_app. reflexivity. Qed.

Lemma hex_digits_value fuel : forall n,
  0 <= n < 16 ^ Z.of_nat fuel -> digits_value (hex_digits fuel n []) = n.
Proof.
  induction fuel as [|fuel IH]; intros n Hn.
  - simpl in *. unfold digits_value. simpl. lia.
  - cbn [hex_digits]. destruct (Z.eqb_spec n 0) as [->|Hne]; [reflexivity|].
    rewrite hex_digits_app, digits_value_snoc, IH.
    + symmetry. apply Z.div_mod. lia.
    + rewrite Nat2Z.inj_succ, Z.pow_succ_r in Hn by lia.
      split; [apply Z.div_pos; lia|apply Z.div_lt_upper_bound; lia].
Qed.

Lemma hex_digits_length fuel : forall n m,
  0 <= n < 16 ^ Z.of_nat m -> (length (hex_digits fuel n []) <= m)%nat.
Proof.
  induction fuel as [|fuel IH]; intros n m Hn; [simpl; lia|].
  cbn [hex_digits]. destruct (Z.eqb_spec n 0) as [->|Hne]; [simpl; lia|].
  destruct m as [|m]; [simpl in Hn; lia|].
  rewrite hex_digits_app, length_app. simpl.
  assert ((length (hex_digits fuel (n / 16) []) <= m)%nat); [|lia].
  apply IH. rewrite Nat2Z.inj_succ, Z.pow_succ_r in Hn by lia.
  split; [apply Z.div_pos; lia|apply Z.div_lt_upper_bound; lia].
Qed.

Lemma parse_hex_digits ds : forall acc,
  Forall is_digit ds ->
  parse_hex (map hex_digit ds) acc =
  Normal (fold_left (fun acc d => 16 * acc + d) ds acc).
Proof.
  induction ds as [|d ds IH]; intros acc Hds; [reflexivity|].
  inversion Hds; subst. simpl. rewrite hex_value_digit by assumption.
  apply IH. assumption.
Qed.

Lemma digits_value_zeros p ds :
  digits_value (repeat 0 p ++ ds) = digits_value ds.
Proof.
  unfold digits_value. rewrite fold_left_app. f_equal.
  induction p as [|p IH]; [reflexivity|]. simpl. exact IH.
Qed.

Lemma Forall_digit_zeros p : Forall is_digit (repeat 0 p).
Proof. apply Forall_forall. intros x Hx. apply repeat_spec in Hx. subst. red. lia. Qed.

Lemma hex_pairs_roundtrip n : forall ds,
  length ds = (2 * n)%nat -> Forall is_digit ds ->
  Buffer_toString_hex (Buffer_from_hex (map hex_digit ds)) = map hex_digit ds /\
  length (Buffer_from_hex (map hex_digit ds)) = n.
Proof.
  induction n as [|n IH]; intros ds Hlen Hds.
  - destruct ds; [split; reflexivity|discriminate].
  - destruct ds as [|h [|l rest]]; try (simpl in Hlen; lia).
    inversion Hds as [|? ? Hh Hds']; subst.
    inversion Hds' as [|? ? Hl Hrest]; subst.
    destruct (IH rest) as [IH1 IH2]; [simpl in Hlen; lia|assumption|].
    cbn [map Buffer_from_hex]. rewrite !hex_value_digit by assumption.
    unfold Buffer_toString_hex in *. cbn [flat_map length app].
    red in Hh, Hl.
    rewrite Z_of_byte_of_Z by lia.
    replace ((16 * h + l) / 16) with h
      by (apply (Z.div_unique _ _ _ l); lia).
    replace ((16 * h + l) mod 16) with l
      by (apply (Z.mod_unique _ _ h); lia).
    rewrite IH1, IH2. split; reflexivity.
Qed.

(** The digits [num.toString(16)] prints for a non-negative number. *)
Lemma BigInt_toString16_digits num :
  0 <= num ->
  exists ds,
    BigInt_toString16 num = map hex_digit ds /\
    Forall is_digit ds /\ digits_value ds = num /\
    forall m, (1 <= m)%nat -> num < 16 ^ Z.of_nat m -> (length ds <= m)%nat.
Proof.
  intros Hnum. unfold BigInt_toString16.
  destruct (Z.eqb_spec num 0) as [->|Hne].
  - exists [0]. repeat split; [constructor; [red; lia|constructor]|].
    intros m Hm _. simpl. lia.
  - replace (num <? 0) with false by (symmetry; apply Z.ltb_ge; lia).
    rewrite Z.abs_eq by lia.
    exists (hex_digits (S (Z.to_nat (Z.log2 num))) num []).
    split; [reflexivity|]. split; [apply hex_digits_range; constructor|]. split.
    + apply hex_digits_value. split; [lia|].
      pose proof (Z.log2_nonneg num) as Hl.
      destruct (Z.log2_spec num ltac:(lia)) as [_ Hup].
      eapply Z.lt_le_trans; [exact Hup|].
      rewrite Nat2Z.inj_succ, Z2Nat.id by lia.
      replace 16 with (2 ^ 4) by reflexivity.
      rewrite <- Z.pow_mul_r by lia. apply Z.pow_le_mono_r; lia.
    + intros m _ Hm. apply hex_digits_length. lia.
Qed.

Lemma toBufferLE_roundtrip num width :
  1 <= width -> 0 <= num < 2 ^ (8 * width) ->
  toBigIntLE (toBufferLE num width) = Normal num /\
  Z.of_nat (length (toBufferLE num width)) = width.
Proof.
  intros Hw Hnum.
  destruct (BigInt_toString16_digits num ltac:(lia)) as (ds & Hhex & Hds & Hval & Hlen).
  assert (Hl : (length ds <= 2 * Z.to_nat width)%nat).
  { apply Hlen; [lia|].
    replace (Z.of_nat (2 * Z.to_nat width)) with (2 * width) by lia.
    replace 16 with (2 ^ 4) by reflexivity.
    rewrite <- Z.pow_mul_r by lia.
    replace (4 * (2 * width)) with (8 * width) by lia. apply Hnum. }
  set (p := (2 * Z.to_nat width - length ds)%nat).
  assert (Hpad : slice0 (padStart0 (BigInt_toString16 num) (width * 2)) (width * 2) =
                 map hex_digit (repeat 0 p ++ ds)).
  { unfold slice0, padStart0. rewrite Hhex, length_map.
    replace (width * 2 <? 0) with false by (symmetry; apply Z.ltb_ge; lia).
    replace (Z.to_nat (width * 2 - Z.of_nat (length ds))) with p by lia.
    rewrite map_app, map_repeat. apply firstn_all2.
    rewrite length_app, repeat_length, length_map. lia. }
  assert (Hall : Forall is_digit (repeat 0 p ++ ds))
    by (apply Forall_app; split; [apply Forall_digit_zeros|assumption]).
  destruct (hex_pairs_roundtrip (Z.to_nat width) (repeat 0 p ++ ds)) as [Hrt Hn];
    [rewrite length_app, repeat_length; lia|assumption|].
  unfold toBufferLE, toBigIntLE. cbv zeta. rewrite Hpad, rev_involutive, Hrt.
  split.
  - rewrite length_map, length_app, repeat_length.
    replace (Z.of_nat (p + length ds) =? 0) with false
      by (symmetry; apply Z.eqb_neq; lia).
    unfold BigInt_of_0x.
    destruct (map hex_digit (repeat 0 p ++ ds)) as [|c rest] eqn:E.
    + apply (f_equal (@length ascii)) in E.
      rewrite length_map, length_app, repeat_length in E. simpl in E. lia.
    + rewrite <- E, parse_hex_digits by assumption.
      fold (digits_value (repeat 0 p ++ ds)).
      rewrite digits_value_zeros, Hval. reflexivity.
  - rewrite length_rev, Hn. lia.
Qed.

(** C3.  Serialisation round trip: for a filter whose [bits] is a positive
    multiple of 8, with [0 <= k < 2^16] and a state below [2^bits],
    [fromBuffer (toBuffer F)] returns a filter with the same [k], with [bits]
    rebuilt as [(length - 2) * 8] and equal to [F.bits], and with the same
    bit-vector. *)
Theorem serialization_round_trip (this : BloomFilter) :
  0 < bits this -> bits this mod 8 = 0 ->
  0 <= k this < 2 ^ 16 ->
  0 <= filter this < 2 ^ bits this ->
  (Z.of_nat (length (toBuffer this)) - 2) * 8 = bits this /\
  fromBuffer (toBuffer this) =
  Normal {| bits := (Z.of_nat (length (toBuffer this)) - 2) * 8;
            k := k this;
            filter := filter this |} /\
  fromBuffer (toBuffer this) = Normal this.
Proof.
  intros Hbits Hmod Hk Hf.
  assert (Hw : bits this = 8 * ceil_div8 (bits this)).
  { unfold ceil_div8. rewrite Z.div_opp_l_z by lia.
    pose proof (Z.div_mod (bits this) 8 ltac:(lia)). lia. }
  set (w := ceil_div8 (bits this)) in *.
  destruct (toBufferLE_roundtrip (k this) 2 ltac:(lia) ltac:(simpl; lia)) as [Hk1 Hk2].
  destruct (toBufferLE_roundtrip (filter this) w ltac:(lia) ltac:(rewrite <- Hw; lia))
    as [Hf1 Hf2].
  assert (Hlen2 : length (toBufferLE (k this) 2) = 2%nat) by lia.
  assert (Hlen : (Z.of_nat (length (toBuffer this)) - 2) * 8 = bits this).
  { unfold toBuffer. fold w. rewrite length_app. lia. }
  assert (Hfrom : fromBuffer (toBuffer this) =
                  Normal {| bits := (Z.of_nat (length (toBuffer this)) - 2) * 8;
                            k := k this; filter := filter this |}).
  { unfold fromBuffer.
    replace (firstn 2 (toBuffer this)) with (toBufferLE (k this) 2).
    2:{ unfold toBuffer. rewrite <- Hlen2 at 1. rewrite firstn_app, firstn_all.
        rewrite Nat.sub_diag, firstn_O, app_nil_r. reflexivity. }
    replace (skipn 2 (toBuffer this)) with (toBufferLE (filter this) w).
    2:{ unfold toBuffer. fold w. rewrite <- Hlen2 at 1. rewrite skipn_app, skipn_all.
        rewrite Nat.sub_diag. reflexivity. }
    rewrite Hk1, Hf1. reflexivity. }
  split; [exact Hlen|]. split; [exact Hfrom|].
  rewrite Hfrom, Hlen. destruct this; reflexivity.
Qed.

Lemma serialization_round_trip_witness :
  0 < bits (mkBloomFilter 16 3 0x1234) /\
  bits (mkBloomFilter 16 3 0x1234) mod 8 = 0 /\
  0 <= k (mkBloomFilter 16 3 0x1234) < 2 ^ 16 /\
  0 <= filter (mkBloomFilter 16 3 0x1234) < 2 ^ bits (mkBloomFilter 16 3 0x1234) /\
  (Z.of_nat (length (toBuffer (mkBloomFilter 16 3 0x1234))) - 2) * 8 =
  bits (mkBloomFilter 16 3 0x1234) /\
  fromBuffer (toBuffer (mkBloomFilter 16 3 0x1234)) =
  Normal {| bits := (Z.of_nat (length (toBuffer (mkBloomFilter 16 3 0x1234))) - 2) * 8;
            k := k (mkBloomFilter 16 3 0x1234);
            filter := filter (mkBloomFilter 16 3 0x1234) |} /\
  fromBuffer (toBuffer (mkBloomFilter 16 3 0x1234)) = Normal (mkBloomFilter 16 3 0x1234).
Proof.
  split; [reflexivity|]. split; [reflexivity|].
  split; [vm_compute; split; [discriminate|reflexivity]|].
  split; [vm_compute; split; [discriminate|reflexivity]|].
  apply (serialization_round_trip (mkBloomFilter 16 3 0x1234));
    first [reflexivity | vm_compute; split; [discriminate|reflexivity]].
Defined.

(* ================================================================== *)
(** * Ordering of binary64 values *)
(* ================================================================== *)

Lemma SFcompare_antisym x y :
  SFcompare y x = option_map CompOpp (SFcompare x y).
Proof.
  destruct x as [sx|sx| |sx mx ex], y as [sy|sy| |sy my ey]; simpl;
    try reflexivity; try (destruct sx; reflexivity); try (destruct sy; reflexivity);
    try (destruct sx, sy; reflexivity).
  f_equal. change (Pos.compare_cont Eq mx my) with (Pos.compare mx my).
  change (Pos.compare_cont Eq my mx) with (Pos.compare my mx).
  rewrite (Z.compare_antisym ex ey), (Pos.compare_antisym mx my).
  destruct sx, sy; simpl; try reflexivity;
    destruct (ex ?= ey); simpl; try reflexivity;
    destruct (mx ?= my)%positive; reflexivity.
Qed.

Lemma SFcompare_lt_trans x y z :
  SFcompare x y = Some Lt -> SFcompare y z = Some Lt -> SFcompare x z = Some Lt.
Proof.
  destruct x as [sx|sx| |sx mx ex], y as [sy|sy| |sy my ey], z as [sz|sz| |sz mz ez];
    simpl; try discriminate;
    try (destruct sx; try discriminate; destruct sy; try discriminate;
         destruct sz; try discriminate; reflexivity);
    try (destruct sx; try discriminate; destruct sy; try discriminate; reflexivity);
    try (destruct sx; try discriminate; destruct sz; try discriminate; reflexivity);
    try (destruct sy; try discriminate; destruct sz; try discriminate; reflexivity).
  all: change (Pos.compare_cont Eq mx my) with (Pos.compare mx my);
    change (Pos.compare_cont Eq my mz) with (Pos.compare my mz);
    change (Pos.compare_cont Eq mx mz) with (Pos.compare mx mz).
  all: destruct sx, sy, sz; try discriminate; try reflexivity.
  all: destruct (Z.compare_spec ex ey), (Z.compare_spec ey ez), (Z.compare_spec ex ez);
    try discriminate; try lia; try reflexivity; subst.
  all: destruct (Pos.compare_spec mx my), (Pos.compare_spec my mz),
         (Pos.compare_spec mx mz);
    simpl; try discriminate; try lia; try reflexivity.
Qed.

Lemma ltb_Lt x y : (x <? y)%float = true <-> SFcompare (Prim2SF x) (Prim2SF y) = Some Lt.
Proof.
  rewrite ltb_spec. unfold SFltb.
  destruct (SFcompare _ _) as [[]|]; split; intros H; try discriminate; reflexivity.
Qed.

Lemma eqb_Eq x y : (x =? y)%float = true <-> SFcompare (Prim2SF x) (Prim2SF y) = Some Eq.
Proof.
  rewrite eqb_spec. unfold SFeqb.
  destruct (SFcompare _ _) as [[]|]; split; intros H; try discriminate; reflexivity.
Qed.

(** [<] on numbers is asymmetric, irreflexive and transitive, and excludes
    [==]; a NaN is related to nothing. *)
Lemma ltb_asym x y : (x <? y)%float = true -> (y <? x)%float = false.
Proof.
  intros H. apply ltb_Lt in H. apply not_true_iff_false. intros H'.
  apply ltb_Lt in H'. rewrite SFcompare_antisym, H in H'. discriminate.
Qed.

Lemma ltb_irrefl x : (x <? x)%float = false.
Proof.
  apply not_true_iff_false. intros H. pose proof (ltb_asym _ _ H). congruence.
Qed.

Lemma ltb_trans x y z :
  (x <? y)%float = true -> (y <? z)%float = true -> (x <? z)%float = true.
Proof. rewrite !ltb_Lt. apply SFcompare_lt_trans. Qed.

Lemma eqb_not_ltb x y :
  (x =? y)%float = true -> (x <? y)%float = false /\ (y <? x)%float = false.
Proof.
  intros H. apply eqb_Eq in H.
  split; apply not_true_iff_false; intros H'; apply ltb_Lt in H'.
  - congruence.
  - rewrite SFcompare_antisym, H in H'. discriminate.
Qed.

(* ================================================================== *)
(** * [compare] *)
(* ================================================================== *)

Lemma compare_unfold fastpopcnt Math_log this bloom :
  compare fastpopcnt Math_log this bloom =
  if negb (k bloom =? k this) || negb (bits bloom =? bits this) then Incompatible
  else if filter this =? filter bloom then Equal
  else if (size fastpopcnt Math_log bloom <? size fastpopcnt Math_log this)%float
       then Larger
       else if (size fastpopcnt Math_log this <? size fastpopcnt Math_log bloom)%float
            then Smaller
            else Inequal.
Proof. reflexivity. Qed.

Section Compare.

Variable fastpopcnt : Z -> Z -> Z.
Variable Math_log : float -> float.

Local Abbreviation size := (size fastpopcnt Math_log).
Local Abbreviation compare := (compare fastpopcnt Math_log).

Lemma compare_incompatible A B :
  (bits A, k A) <> (bits B, k B) -> compare A B = Incompatible.
Proof.
  intros H. rewrite compare_unfold.
  destruct (Z.eqb_spec (k B) (k A)) as [Hk|Hk];
    destruct (Z.eqb_spec (bits B) (bits A)) as [Hb|Hb]; simpl; try reflexivity.
  contradiction H. rewrite Hk, Hb. reflexivity.
Qed.

Lemma compare_compatible A B :
  (bits A, k A) = (bits B, k B) ->
  compare A B =
  if filter A =? filter B then Equal
  else if (size B <? size A)%float then Larger
       else if (size A <? size B)%float then Smaller
            else Inequal.
Proof.
  intros H. inversion H as [[Hb Hk]]. rewrite compare_unfold.
  rewrite Hb, Hk, !Z.eqb_refl. reflexivity.
Qed.

End Compare.

(** C5.  [A.compare(B)] is [Incompatible] if the [(bits, k)] parameters
    differ; with equal parameters it is [Equal] if the bit-vectors are
    identical, and otherwise [Larger] if the estimated size of [A] is strictly
    greater than that of [B], [Smaller] if it is strictly less, and [Inequal]
    if the two estimates are equal. *)
Theorem compare_semantics (fastpopcnt : Z -> Z -> Z) (Math_log : float -> float)
        (A B : BloomFilter) :
  let size := size fastpopcnt Math_log in
  let compare := compare fastpopcnt Math_log in
  ((bits A, k A) <> (bits B, k B) -> compare A B = Incompatible) /\
  ((bits A, k A) = (bits B, k B) ->
   (filter A = filter B -> compare A B = Equal) /\
   (filter A <> filter B ->
    ((size B <? size A)%float = true -> compare A B = Larger) /\
    ((size A <? size B)%float = true -> compare A B = Smaller) /\
    ((size A =? size B)%float = true -> compare A B = Inequal))).
Proof.
  intros size compare. split; [apply compare_incompatible|].
  intros Hp. subst compare size. rewrite compare_compatible by assumption.
  split.
  - intros ->. rewrite Z.eqb_refl. reflexivity.
  - intros Hne. destruct (Z.eqb_spec (filter A) (filter B)) as [E|_]; [contradiction|].
    repeat split.
    + intros ->. reflexivity.
    + intros H. rewrite (ltb_asym _ _ H), H. reflexivity.
    + intros H. destruct (eqb_not_ltb _ _ H) as [-> ->]. reflexivity.
Qed.

(** C10.  [compare] returns one of [Incompatible], [Equal], [Larger],
    [Smaller] and [Inequal]; the enumerator [None] (value -1) is never
    returned. *)
Theorem compare_never_None (fastpopcnt : Z -> Z -> Z) (Math_log : float -> float)
        (A B : BloomFilter) :
  let r := compare fastpopcnt Math_log A B in
  (r = Incompatible \/ r = Equal \/ r = Larger \/ r = Smaller \/ r = Inequal) /\
  r <> None_ /\ FilterComparison_value r <> -1.
Proof.
  intros r. subst r. unfold compare.
  destruct (_ || _); [|destruct (_ =? _); [|destruct (_ <? _)%float;
                                             [|destruct (_ <? _)%float]]];
    (split; [tauto|split; discriminate]).
Qed.

(* ================================================================== *)
(** * [OptimalParameters] *)
(* ================================================================== *)

Section Optimizer.

Variable Math_log : float -> float.
Variable Math_pow : float -> float -> float.
Variables n fp : float.

Local Abbreviation m := (m_of Math_log Math_pow n fp).
Local Abbreviation track := (track_min Math_log Math_pow n fp).

Lemma OptimalParameters_loop_unroll len : forall fuel min_m min_k k,
  (len < fuel)%nat ->
  forallb (fun x => x <? 1000)%float (count_from k len) = true ->
  (count_end k len <? 1000)%float = false ->
  OptimalParameters_loop Math_log Math_pow fuel n fp (min_m, min_k, k) =
  Some (fold_left track (count_from k len) (min_m, min_k)).
Proof.
  induction len as [|len IH]; intros fuel min_m min_k k Hfuel Hall Hend;
    (destruct fuel as [|fuel]; [lia|]).
  - simpl in *. rewrite Hend. reflexivity.
  - cbn [count_from forallb] in Hall. apply andb_true_iff in Hall as [Hk Hall].
    cbn [OptimalParameters_loop count_from fold_left count_end] in *.
    rewrite Hk. unfold OptimalParameters_step, track_min at 2. fold (m k).
    cbn [fst]. destruct (m k <? min_m)%float; apply IH; assumption || lia.
Qed.

Lemma track_min_fold ks : forall m0 k0 rm rk,
  fold_left track ks (m0, k0) = (rm, rk) ->
  (forall x, In x ks -> (m x <? rm)%float = false) /\
  (forall y, (y <? m0)%float = false -> (y <? rm)%float = false) /\
  ((rm, rk) = (m0, k0) \/
   exists x, In x ks /\ rk = x /\ rm = m x /\ (m x <? m0)%float = true).
Proof.
  induction ks as [|x ks IH]; intros m0 k0 rm rk Hfold.
  - simpl in Hfold. inversion Hfold; subst. repeat split; auto.
    intros x [].
  - cbn [fold_left] in Hfold. unfold track_min at 2 in Hfold. cbn [fst] in Hfold.
    destruct (m x <? m0)%float eqn:Hlt.
    + destruct (IH _ _ _ _ Hfold) as (Ha & Hb & Hc).
      assert (Hb0 : forall y, (y <? m0)%float = false -> (y <? rm)%float = false).
      { intros y Hy. apply Hb. apply not_true_iff_false. intros Hyx.
        rewrite (ltb_trans _ _ _ Hyx Hlt) in Hy. discriminate. }
      repeat split.
      * intros x' [<-|Hin]; [apply Hb, ltb_irrefl|apply Ha; assumption].
      * exact Hb0.
      * right. destruct Hc as [Hc|(x' & Hin & Hk & Hm & Hlt')].
        -- inversion Hc; subst. exists x. repeat split; auto. left. reflexivity.
        -- exists x'. repeat split; auto; [right; assumption|].
           rewrite <- Hm in *. eapply ltb_trans; eassumption.
    + destruct (IH _ _ _ _ Hfold) as (Ha & Hb & Hc).
      repeat split.
      * intros x' [<-|Hin]; [apply Hb; assumption|apply Ha; assumption].
      * exact Hb.
      * destruct Hc as [Hc|(x' & Hin & Hk & Hm & Hlt')]; [left; assumption|].
        right. exists x'. repeat split; auto. right. assumption.
Qed.

End Optimizer.

Lemma count_from_k_range : count_from 1%float 999 = k_range.
Proof. vm_compute. reflexivity. Qed.

Lemma k_range_below : forallb (fun x => x <? 1000)%float k_range = true.
Proof. vm_compute. reflexivity. Qed.

Lemma count_end_k_range : (count_end 1%float 999 <? 1000)%float = false.
Proof. vm_compute. reflexivity. Qed.

Lemma In_k_range x :
  In x k_range <-> exists j, 1 <= j <= 999 /\ x = Number_of_Z j.
Proof.
  unfold k_range. rewrite in_map_iff. split.
  - intros (i & <- & Hi). apply in_seq in Hi. exists (Z.of_nat i). split; [lia|reflexivity].
  - intros (j & Hj & ->). exists (Z.to_nat j). split.
    + rewrite Z2Nat.id by lia. reflexivity.
    + apply in_seq. lia.
Qed.

Lemma search_unfold Math_log Math_pow n fp ks :
  search Math_log Math_pow n fp ks =
  fold_left (track_min Math_log Math_pow n fp) ks (Number_MAX_VALUE, 0%float).
Proof. reflexivity. Qed.



(* ================================================================== *)
(** * Comparing a filter with a filter of more items *)
(* ================================================================== *)


Lemma testbit_above x m j :
  0 <= x < 2 ^ m -> 0 <= m <= j -> Z.testbit x j = false.
Proof.
  intros Hx Hj. rewrite <- (Z.mod_small x (2 ^ m)) by assumption.
  apply Z.mod_pow2_bits_high. assumption.
Qed.

Lemma lor_range x y m :
  0 <= m -> 0 <= x < 2 ^ m -> 0 <= y < 2 ^ m -> 0 <= Z.lor x y < 2 ^ m.
Proof.
  intros Hm Hx Hy.
  assert (H0 : 0 <= Z.lor x y) by (apply Z.lor_nonneg; lia).
  split; [assumption|]. apply bits_below; [assumption|assumption|].
  intros j Hj. destruct (Z.ltb_spec j m) as [|Hge]; [assumption|exfalso].
  rewrite Z.lor_spec, (testbit_above x m j), (testbit_above y m j) in Hj by lia.
  discriminate.
Qed.

Section Superset.

Variable XXH64 : Buffer -> Z -> Z.

Lemma itemHash_mask_range v bits k :
  0 < bits ->
  0 <= set_bits (itemHash_steps XXH64 v bits k) 0 < 2 ^ bits.
Proof.
  intros Hb.
  pose proof (itemHash_steps_range XXH64 v bits k Hb) as Hrange.
  pose proof (Forall_range_nonneg _ _ Hrange) as Hnn.
  assert (H0 : 0 <= set_bits (itemHash_steps XXH64 v bits k) 0)
    by (apply set_bits_nonneg; [assumption|lia]).
  split; [assumption|]. apply bits_below; [assumption|lia|].
  intros j Hj. rewrite set_bits_testbit, Z.bits_0 in Hj by assumption.
  apply existsb_eqb_In in Hj. rewrite Forall_forall in Hrange.
  apply Hrange in Hj. lia.
Qed.



End Superset.






(* ================================================================== *)
(** * Edge cases of the index generator *)
(* ================================================================== *)

Lemma itemHash_returns XXH64 v bits k :
  bits <> 0 \/ k <= 0 ->
  itemHash XXH64 v bits k = Normal (item_mask XXH64 v bits k).
Proof.
  intros [Hb|Hk]; [apply itemHash_normal; assumption|].
  unfold itemHash, item_mask, itemHash_steps.
  replace (Z.to_nat k) with O by lia. reflexivity.
Qed.

Lemma itemHash_throws XXH64 v k :
  1 <= k ->
  itemHash XXH64 v 0 k = Throw (RangeError "Division by zero").
Proof.
  intros Hk. unfold itemHash.
  destruct (Z.to_nat k) as [|n] eqn:E; [lia|]. reflexivity.
Qed.

Lemma item_mask_zero_hashes XXH64 v bits k : k <= 0 -> item_mask XXH64 v bits k = 0.
Proof.
  intros Hk. unfold item_mask, itemHash_steps.
  replace (Z.to_nat k) with O by lia. reflexivity.
Qed.

Lemma item_mask_nonzero XXH64 v bits k :
  1 <= bits -> 1 <= k -> item_mask XXH64 v bits k <> 0.
Proof.
  intros Hb Hk E. unfold item_mask in E.
  pose proof (itemHash_steps_range XXH64 v bits k ltac:(lia)) as Hrange.
  pose proof (itemHash_steps_length XXH64 v bits k) as Hlen.
  destruct (itemHash_steps XXH64 v bits k) as [|b rest] eqn:Es; [simpl in Hlen; lia|].
  assert (Hbit : Z.testbit (set_bits (b :: rest) 0) b = true).
  { rewrite set_bits_testbit by (eapply Forall_range_nonneg; eassumption).
    simpl. rewrite Z.eqb_refl. apply orb_true_r. }
  rewrite E, Z.bits_0 in Hbit. discriminate.
Qed.

Lemma set_filter_same this : set_filter this (filter this) = this.
Proof. destruct this; reflexivity. Qed.

(** X1.  A filter of width zero rejects every item: with [bits = 0] and
    [k >= 1] both [add] and [test] throw a [RangeError] (the remainder
    [a % 0n]), and [add] leaves the filter as it was. *)
Theorem zero_width_throws (XXH64 : Buffer -> Z -> Z) (v : item) (this : BloomFilter) :
  bits this = 0 -> 1 <= k this ->
  add XXH64 v this = (Throw (RangeError "Division by zero"), this) /\
  test XXH64 v this = Throw (RangeError "Division by zero").
Proof.
  intros Hb Hk. unfold add, test. rewrite Hb, itemHash_throws by assumption.
  split; reflexivity.
Qed.

Lemma zero_width_throws_witness :
  bits (new_BloomFilter 0 3) = 0 /\ 1 <= k (new_BloomFilter 0 3) /\
  add fnv1a64 (ItemString "alpha") (new_BloomFilter 0 3) =
  (Throw (RangeError "Division by zero"), new_BloomFilter 0 3) /\
  test fnv1a64 (ItemString "alpha") (new_BloomFilter 0 3) =
  Throw (RangeError "Division by zero").
Proof.
  split; [reflexivity|]. split; [simpl; lia|].
  apply (zero_width_throws fnv1a64 (ItemString "alpha") (new_BloomFilter 0 3));
    [reflexivity|simpl; lia].
Defined.

(** X2.  A filter with no hash step accepts everything: with [k <= 0] the
    loop of [itemHash] does not run and the mask is [0n], so [add] returns
    without changing the filter and [test] answers [true] for every item,
    also on an empty filter and also when [bits] is zero. *)
Theorem zero_hashes_match_everything (XXH64 : Buffer -> Z -> Z) (v : item)
        (this : BloomFilter) :
  k this <= 0 ->
  itemHash XXH64 v (bits this) (k this) = Normal 0 /\
  add XXH64 v this = (Normal tt, this) /\
  test XXH64 v this = Normal true.
Proof.
  intros Hk.
  assert (E : itemHash XXH64 v (bits this) (k this) = Normal 0).
  { rewrite itemHash_returns by (right; assumption).
    rewrite item_mask_zero_hashes by assumption. reflexivity. }
  split; [exact E|]. unfold add, test. rewrite E. split.
  - rewrite Z.lor_0_r, set_filter_same. reflexivity.
  - cbn [bind]. rewrite Z.land_0_r. reflexivity.
Qed.

Lemma zero_hashes_match_everything_witness :
  k (new_BloomFilter 64 0) <= 0 /\
  itemHash fnv1a64 (ItemString "alpha") (bits (new_BloomFilter 64 0))
           (k (new_BloomFilter 64 0)) = Normal 0 /\
  add fnv1a64 (ItemString "alpha") (new_BloomFilter 64 0) =
  (Normal tt, new_BloomFilter 64 0) /\
  test fnv1a64 (ItemString "alpha") (new_BloomFilter 64 0) = Normal true.
Proof.
  split; [simpl; lia|].
  apply (zero_hashes_match_everything fnv1a64 (ItemString "alpha")
           (new_BloomFilter 64 0)).
  simpl; lia.
Defined.

(** X3.  A new filter holds nothing: with [bits >= 1] and [k >= 1], [test]
    on a freshly constructed filter returns [false] for every item. *)
Theorem new_filter_tests_false (XXH64 : Buffer -> Z -> Z) (v : item) (width hashes : Z) :
  1 <= width -> 1 <= hashes ->
  test XXH64 v (new_BloomFilter width hashes) = Normal false.
Proof.
  intros Hw Hh. unfold test. cbn [bits k filter new_BloomFilter].
  rewrite itemHash_returns by (left; lia). cbn [bind]. rewrite Z.land_0_l.
  pose proof (item_mask_nonzero XXH64 v width hashes Hw Hh) as Hne.
  destruct (Z.eqb_spec 0 (item_mask XXH64 v width hashes)) as [E|_];
    [congruence|reflexivity].
Qed.

Lemma new_filter_tests_false_witness :
  1 <= 64 /\ 1 <= 4 /\
  test fnv1a64 (ItemString "alpha") (new_BloomFilter 64 4) = Normal false.
Proof.
  split; [lia|]. split; [lia|].
  apply (new_filter_tests_false fnv1a64 (ItemString "alpha") 64 4); lia.
Defined.

(* ================================================================== *)
(** * Runs of [add], membership and [union] *)
(* ================================================================== *)

Section Membership.

Variable XXH64 : Buffer -> Z -> Z.

Lemma add_state v this :
  bits this <> 0 \/ k this <= 0 ->
  add XXH64 v this =
  (Normal tt,
   set_filter this (Z.lor (filter this) (item_mask XXH64 v (bits this) (k this)))).
Proof. intros H. unfold add. rewrite itemHash_returns by assumption. reflexivity. Qed.

Lemma test_true_iff v this :
  bits this <> 0 \/ k this <= 0 ->
  test XXH64 v this = Normal true <->
  subbits (item_mask XXH64 v (bits this) (k this)) (filter this).
Proof.
  intros H. unfold test, subbits. rewrite itemHash_returns by assumption.
  cbn [bind]. rewrite Z.land_comm. split.
  - intros E. inversion E as [E']. apply Z.eqb_eq. assumption.
  - intros E. rewrite E, Z.eqb_refl. reflexivity.
Qed.

Lemma add_all_state vs : forall this,
  bits this <> 0 \/ k this <= 0 ->
  add_all XXH64 vs this =
  (Normal tt,
   set_filter this
     (lor_all (map (fun v => item_mask XXH64 v (bits this) (k this)) vs)
              (filter this))).
Proof.
  unfold add_all, lor_all.
  induction vs as [|v vs IH]; intros this H.
  - simpl. rewrite set_filter_same. reflexivity.
  - cbn [map perform_all perform fold_left]. rewrite add_state by assumption.
    rewrite IH by exact H. reflexivity.
Qed.

Lemma add_all_throws vs this :
  bits this = 0 -> 1 <= k this ->
  add_all XXH64 vs this =
  (match vs with
   | [] => Normal tt
   | _ :: _ => Throw (RangeError "Division by zero")
   end, this).
Proof.
  intros Hb Hk. destruct vs as [|v vs]; [reflexivity|].
  unfold add_all. cbn [map perform_all perform]. unfold add.
  rewrite Hb, itemHash_throws by assumption. reflexivity.
Qed.

Lemma lor_all_testbit ms : forall f j,
  Z.testbit (lor_all ms f) j = Z.testbit f j || existsb (fun m => Z.testbit m j) ms.
Proof.
  unfold lor_all. induction ms as [|m ms IH]; intros f j; simpl.
  - symmetry. apply orb_false_r.
  - rewrite IH, Z.lor_spec. symmetry. apply orb_assoc.
Qed.

Lemma lor_all_subbits_state ms f : subbits f (lor_all ms f).
Proof.
  apply subbits_testbit. intros j Hj. rewrite lor_all_testbit, Hj. reflexivity.
Qed.

Lemma lor_all_subbits_mask ms f m : In m ms -> subbits m (lor_all ms f).
Proof.
  intros Hin. apply subbits_testbit. intros j Hj. rewrite lor_all_testbit.
  apply orb_true_iff. right. apply existsb_exists. exists m. auto.
Qed.

Lemma lor_all_same_elements ms ns f :
  (forall m, In m ms <-> In m ns) -> lor_all ms f = lor_all ns f.
Proof.
  intros H. apply Z.bits_inj'. intros j _. rewrite !lor_all_testbit. f_equal.
  apply eq_true_iff_eq. rewrite !existsb_exists.
  split; intros (m & Hin & Hm); exists m; (split; [apply H; assumption|assumption]).
Qed.

(** A run of [add] on a filter that does not throw returns, and afterwards
    every item of the run tests [true], as does every item that tested
    [true] before. *)
Lemma add_all_members vs this :
  bits this <> 0 \/ k this <= 0 ->
  exists this',
    add_all XXH64 vs this = (Normal tt, this') /\
    bits this' = bits this /\ k this' = k this /\
    (forall x, In x vs -> test XXH64 x this' = Normal true) /\
    (forall x, test XXH64 x this = Normal true -> test XXH64 x this' = Normal true).
Proof.
  intros H. eexists. split; [apply add_all_state; assumption|].
  split; [reflexivity|]. split; [reflexivity|]. split.
  - intros x Hx. apply test_true_iff; [exact H|].
    cbn [bits k filter set_filter]. apply lor_all_subbits_mask.
    apply in_map_iff. exists x. auto.
  - intros x Hx. apply test_true_iff in Hx; [|exact H].
    apply test_true_iff; [exact H|]. cbn [bits k filter set_filter].
    eapply subbits_trans; [exact Hx|apply lor_all_subbits_state].
Qed.

End Membership.

(** X4.  The state after a run of [add] calls depends only on which items
    were added: two runs over lists with the same elements (in any order,
    with any repetitions) end with the same completion and the same
    filter. *)
Theorem add_all_same_items (XXH64 : Buffer -> Z -> Z) (vs ws : list item)
        (this : BloomFilter) :
  (forall x, In x vs <-> In x ws) ->
  add_all XXH64 vs this = add_all XXH64 ws this.
Proof.
  intros Hsame.
  destruct (Z.eq_dec (bits this) 0) as [Hb|Hb];
    [destruct (Z_le_gt_dec (k this) 0) as [Hk|Hk]|].
  - rewrite !add_all_state by (right; assumption). do 2 f_equal.
    apply lor_all_same_elements. intros m. rewrite !in_map_iff.
    split; intros (x & Hm & Hx); exists x; (split; [assumption|apply Hsame; assumption]).
  - rewrite !add_all_throws by lia.
    destruct vs as [|v vs], ws as [|w ws]; try reflexivity.
    + exfalso. apply (Hsame w). left. reflexivity.
    + exfalso. apply (Hsame v). left. reflexivity.
  - rewrite !add_all_state by (left; assumption). do 2 f_equal.
    apply lor_all_same_elements. intros m. rewrite !in_map_iff.
    split; intros (x & Hm & Hx); exists x; (split; [assumption|apply Hsame; assumption]).
Qed.

Lemma add_all_same_items_witness :
  (forall x, In x [ItemString "alpha"; ItemString "beta"; ItemString "alpha"] <->
             In x [ItemString "beta"; ItemString "alpha"]) /\
  add_all fnv1a64 [ItemString "alpha"; ItemString "beta"; ItemString "alpha"]
          (new_BloomFilter 64 4) =
  add_all fnv1a64 [ItemString "beta"; ItemString "alpha"] (new_BloomFilter 64 4).
Proof.
  assert (H : forall x, In x [ItemString "alpha"; ItemString "beta"; ItemString "alpha"] <->
                        In x [ItemString "beta"; ItemString "alpha"])
    by (intros x; simpl; tauto).
  split; [exact H|].
  exact (add_all_same_items fnv1a64 _ _ (new_BloomFilter 64 4) H).
Defined.

(** X5.  [union] keeps the members of both filters: when the parameters
    agree and the width is not zero, an item that tests [true] on the
    receiver or on the argument tests [true] on the receiver after
    [union]. *)
Theorem union_keeps_members (XXH64 : Buffer -> Z -> Z) (x : item)
        (this bloom : BloomFilter) :
  (bits bloom, k bloom) = (bits this, k this) ->
  bits this <> 0 ->
  test XXH64 x this = Normal true \/ test XXH64 x bloom = Normal true ->
  fst (union bloom this) = Normal tt /\
  test XXH64 x (snd (union bloom this)) = Normal true.
Proof.
  intros Hp Hb Hx. inversion Hp as [[Hbits Hk]].
  unfold union. rewrite Hbits, Hk, !Z.eqb_refl. cbn [negb orb fst snd].
  split; [reflexivity|].
  apply test_true_iff; [left; exact Hb|]. cbn [bits k filter set_filter].
  destruct Hx as [Hx|Hx].
  - apply test_true_iff in Hx; [|left; exact Hb].
    eapply subbits_trans; [exact Hx|apply subbits_lor_l].
  - apply test_true_iff in Hx; [|left; rewrite Hbits; exact Hb].
    rewrite Hbits, Hk in Hx.
    eapply subbits_trans; [exact Hx|apply subbits_lor_r].
Qed.

Lemma union_keeps_members_witness :
  (bits (snd (add fnv1a64 (ItemString "beta") (new_BloomFilter 64 4))),
   k (snd (add fnv1a64 (ItemString "beta") (new_BloomFilter 64 4)))) =
  (bits (new_BloomFilter 64 4), k (new_BloomFilter 64 4)) /\
  bits (new_BloomFilter 64 4) <> 0 /\
  (test fnv1a64 (ItemString "beta") (new_BloomFilter 64 4) = Normal true \/
   test fnv1a64 (ItemString "beta")
        (snd (add fnv1a64 (ItemString "beta") (new_BloomFilter 64 4))) = Normal true) /\
  fst (union (snd (add fnv1a64 (ItemString "beta") (new_BloomFilter 64 4)))
             (new_BloomFilter 64 4)) = Normal tt /\
  test fnv1a64 (ItemString "beta")
       (snd (union (snd (add fnv1a64 (ItemString "beta") (new_BloomFilter 64 4)))
                   (new_BloomFilter 64 4))) = Normal true.
Proof.
  assert (H1 : (bits (snd (add fnv1a64 (ItemString "beta") (new_BloomFilter 64 4))),
                k (snd (add fnv1a64 (ItemString "beta") (new_BloomFilter 64 4)))) =
               (bits (new_BloomFilter 64 4), k (new_BloomFilter 64 4)))
    by (vm_compute; reflexivity).
  assert (H2 : bits (new_BloomFilter 64 4) <> 0) by (simpl; lia).
  assert (H3 : test fnv1a64 (ItemString "beta") (new_BloomFilter 64 4) = Normal true \/
               test fnv1a64 (ItemString "beta")
                    (snd (add fnv1a64 (ItemString "beta") (new_BloomFilter 64 4)))
               = Normal true)
    by (right; vm_compute; reflexivity).
  split; [exact H1|]. split; [exact H2|]. split; [exact H3|].
  exact (union_keeps_members fnv1a64 (ItemString "beta") (new_BloomFilter 64 4)
           (snd (add fnv1a64 (ItemString "beta") (new_BloomFilter 64 4))) H1 H2 H3).
Defined.

(** X6.  On filters with the same parameters [union] is commutative,
    associative and idempotent on the bit-vector: [A.union(B)] and
    [B.union(A)] leave the same state, merging [B] then [C] into [A] leaves
    the state of merging [C] into [B] and the result into [A], and
    [A.union(A)] returns with [A] unchanged. *)
Theorem union_algebra (A B C : BloomFilter) :
  (bits A, k A) = (bits B, k B) -> (bits B, k B) = (bits C, k C) ->
  filter (snd (union B A)) = filter (snd (union A B)) /\
  filter (snd (union C (snd (union B A)))) =
  filter (snd (union (snd (union C B)) A)) /\
  union A A = (Normal tt, A).
Proof.
  intros HAB HBC. inversion HAB as [[Hb1 Hk1]]. inversion HBC as [[Hb2 Hk2]].
  unfold union. cbn [bits k filter set_filter snd].
  rewrite <- ?Hb2, <- ?Hk2, <- ?Hb1, <- ?Hk1, !Z.eqb_refl.
  cbn [negb orb bits k filter set_filter snd].
  rewrite <- ?Hb2, <- ?Hk2, <- ?Hb1, <- ?Hk1, !Z.eqb_refl.
  cbn [negb orb bits k filter set_filter snd].
  split; [apply Z.lor_comm|]. split; [symmetry; apply Z.lor_assoc|].
  rewrite Z.lor_diag, set_filter_same. reflexivity.
Qed.

Lemma union_algebra_witness :
  (bits (mkBloomFilter 8 2 5), k (mkBloomFilter 8 2 5)) =
  (bits (mkBloomFilter 8 2 3), k (mkBloomFilter 8 2 3)) /\
  (bits (mkBloomFilter 8 2 3), k (mkBloomFilter 8 2 3)) =
  (bits (mkBloomFilter 8 2 64), k (mkBloomFilter 8 2 64)) /\
  filter (snd (union (mkBloomFilter 8 2 3) (mkBloomFilter 8 2 5))) =
  filter (snd (union (mkBloomFilter 8 2 5) (mkBloomFilter 8 2 3))) /\
  filter (snd (union (mkBloomFilter 8 2 64)
                     (snd (union (mkBloomFilter 8 2 3) (mkBloomFilter 8 2 5))))) =
  filter (snd (union (snd (union (mkBloomFilter 8 2 64) (mkBloomFilter 8 2 3)))
                     (mkBloomFilter 8 2 5))) /\
  union (mkBloomFilter 8 2 5) (mkBloomFilter 8 2 5) = (Normal tt, mkBloomFilter 8 2 5).
Proof.
  split; [reflexivity|]. split; [reflexivity|].
  apply (union_algebra (mkBloomFilter 8 2 5) (mkBloomFilter 8 2 3)
           (mkBloomFilter 8 2 64)); reflexivity.
Defined.

(* ================================================================== *)
(** * The width of the state *)
(* ================================================================== *)

Lemma perform_in_width XXH64 c this :
  0 < bits this -> in_width this -> call_in_width (bits this) c ->
  in_width (snd (perform XXH64 c this)).
Proof.
  unfold in_width. intros Hb Hf Hc. destruct c as [v|bloom]; cbn [perform].
  - rewrite add_returns by lia. cbn [snd bits filter set_filter].
    apply lor_range; [lia|assumption|apply itemHash_mask_range; assumption].
  - unfold union. destruct (_ || _); cbn [snd bits filter set_filter];
      [assumption|]. apply lor_range; [lia|assumption|exact Hc].
Qed.

Lemma perform_all_in_width XXH64 cs : forall this,
  0 < bits this -> in_width this ->
  Forall (call_in_width (bits this)) cs ->
  in_width (snd (perform_all XXH64 cs this)).
Proof.
  induction cs as [|c cs IH]; intros this Hb Hf Hcs; [exact Hf|].
  inversion Hcs as [|? ? Hc Hcs']; subst. cbn [perform_all].
  pose proof (perform_in_width XXH64 c this Hb Hf Hc) as Hw.
  destruct (perform_params XXH64 c this) as [Hbits _].
  destruct (perform XXH64 c this) as [[[]|e] this'] eqn:E; cbn [snd] in *.
  - apply IH; [lia|exact Hw|rewrite Hbits; exact Hcs'].
  - exact Hw.
Qed.

(** X7.  The state never outgrows the width: on a filter of positive
    width whose state is below [2^bits], every sequence of [add] and [union]
    calls (the arguments of [union] being below [2^bits] themselves) leaves
    [bits] and [k] as they were and the state below [2^bits]. *)
Theorem state_stays_in_width (XXH64 : Buffer -> Z -> Z) (cs : list call)
        (this : BloomFilter) :
  0 < bits this -> in_width this ->
  Forall (call_in_width (bits this)) cs ->
  bits (snd (perform_all XXH64 cs this)) = bits this /\
  k (snd (perform_all XXH64 cs this)) = k this /\
  in_width (snd (perform_all XXH64 cs this)).
Proof.
  intros Hb Hf Hcs.
  destruct (perform_all_params XXH64 cs this) as [Hbits Hk].
  split; [exact Hbits|]. split; [exact Hk|].
  apply perform_all_in_width; assumption.
Qed.

Lemma state_stays_in_width_witness :
  0 < bits (new_BloomFilter 8 2) /\ in_width (new_BloomFilter 8 2) /\
  Forall (call_in_width (bits (new_BloomFilter 8 2)))
         [CallAdd (ItemString "alpha"); CallUnion (mkBloomFilter 8 2 129)] /\
  bits (snd (perform_all fnv1a64
               [CallAdd (ItemString "alpha"); CallUnion (mkBloomFilter 8 2 129)]
               (new_BloomFilter 8 2))) = bits (new_BloomFilter 8 2) /\
  k (snd (perform_all fnv1a64
            [CallAdd (ItemString "alpha"); CallUnion (mkBloomFilter 8 2 129)]
            (new_BloomFilter 8 2))) = k (new_BloomFilter 8 2) /\
  in_width (snd (perform_all fnv1a64
                   [CallAdd (ItemString "alpha"); CallUnion (mkBloomFilter 8 2 129)]
                   (new_BloomFilter 8 2))).
Proof.
  assert (H1 : 0 < bits (new_BloomFilter 8 2)) by reflexivity.
  assert (H2 : in_width (new_BloomFilter 8 2))
    by (vm_compute; split; [discriminate|reflexivity]).
  assert (H3 : Forall (call_in_width (bits (new_BloomFilter 8 2)))
                      [CallAdd (ItemString "alpha"); CallUnion (mkBloomFilter 8 2 129)]).
  { repeat constructor; vm_compute; discriminate. }
  split; [exact H1|]. split; [exact H2|]. split; [exact H3|].
  exact (state_stays_in_width fnv1a64 _ (new_BloomFilter 8 2) H1 H2 H3).
Defined.

Lemma PopCount_zero w : PopCount 0 w = 0.
Proof.
  induction w as [|w IH]; cbn [PopCount]; [reflexivity|].
  rewrite IH, Z.bits_0. reflexivity.
Qed.

Lemma PopCount_lor a b w : PopCount (Z.lor a b) w <= PopCount a w + PopCount b w.
Proof.
  induction w as [|w IH]; cbn [PopCount]; [lia|]. rewrite Z.lor_spec.
  destruct (Z.testbit a (Z.of_nat w)), (Z.testbit b (Z.of_nat w)); simpl; lia.
Qed.

Lemma PopCount_lor_all ms bound w : forall f,
  Forall (fun m => PopCount m w <= bound) ms ->
  PopCount (lor_all ms f) w <= PopCount f w + bound * Z.of_nat (length ms).
Proof.
  unfold lor_all. induction ms as [|m ms IH]; intros f Hms; [simpl; lia|].
  inversion Hms as [|? ? Hm Hms']; subst. cbn [fold_left length].
  specialize (IH (Z.lor f m) Hms'). pose proof (PopCount_lor f m w). lia.
Qed.

(** X8.  A filter built from a new one by adding [n] items has at most
    [k * n] bits set (for a positive width and [k >= 0]). *)
Theorem popcount_after_adds (XXH64 : Buffer -> Z -> Z) (vs : list item)
        (width hashes : Z) (w : nat) :
  1 <= width -> 0 <= hashes ->
  PopCount (filter (snd (add_all XXH64 vs (new_BloomFilter width hashes)))) w
  <= hashes * Z.of_nat (length vs).
Proof.
  intros Hw Hh. rewrite add_all_state by (left; simpl; lia).
  cbn [snd bits k filter set_filter new_BloomFilter].
  pose proof (PopCount_lor_all
                (map (fun v => item_mask XXH64 v width hashes) vs) hashes w 0) as H.
  rewrite PopCount_zero, length_map in H. apply H.
  apply Forall_forall. intros m Hm. apply in_map_iff in Hm as (v & <- & _).
  unfold item_mask.
  pose proof (set_bits_PopCount (itemHash_steps XXH64 v width hashes) 0 w) as Hc.
  rewrite PopCount_zero, itemHash_steps_length in Hc.
  rewrite Z2Nat.id in Hc by lia. apply Hc.
  eapply Forall_range_nonneg. apply itemHash_steps_range. lia.
Qed.

Lemma popcount_after_adds_witness :
  1 <= 64 /\ 0 <= 4 /\
  PopCount (filter (snd (add_all fnv1a64 [ItemString "alpha"; ItemString "beta"]
                                 (new_BloomFilter 64 4)))) 64
  <= 4 * Z.of_nat (length [ItemString "alpha"; ItemString "beta"]).
Proof.
  split; [lia|]. split; [lia|].
  apply (popcount_after_adds fnv1a64 [ItemString "alpha"; ItemString "beta"] 64 4 64);
    lia.
Defined.

(* ================================================================== *)
(** * Reading and writing buffers *)
(* ================================================================== *)

Lemma Z_of_byte_range b : 0 <= Z_of_byte b < 256.
Proof.
  unfold Z_of_byte. pose proof (Byte.to_N_bounded b) as H. lia.
Qed.


Lemma Buffer_toString_hex_digits buf :
  Buffer_toString_hex buf = map hex_digit (byte_digits buf).
Proof.
  unfold Buffer_toString_hex, byte_digits.
  induction buf as [|b buf IH]; [reflexivity|]. simpl. rewrite IH. reflexivity.
Qed.

Lemma byte_digits_range buf : Forall is_digit (byte_digits buf).
Proof.
  unfold byte_digits. induction buf as [|b buf IH]; simpl; [constructor|].
  pose proof (Z_of_byte_range b) as Hb.
  constructor; [|constructor; [|exact IH]]; red.
  - split; [apply Z.div_pos; lia|apply Z.div_lt_upper_bound; lia].
  - apply Z.mod_pos_bound. lia.
Qed.

Lemma byte_digits_app a b : byte_digits (a ++ b) = byte_digits a ++ byte_digits b.
Proof. unfold byte_digits. apply flat_map_app. Qed.

Lemma digits_value_app xs ys :
  digits_value (xs ++ ys) = fold_left (fun acc d => 16 * acc + d) ys (digits_value xs).
Proof. unfold digits_value. apply fold_left_app. Qed.

Lemma digits_value_rev_bytes buf : digits_value (byte_digits (rev buf)) = le_value buf.
Proof.
  induction buf as [|b buf IH]; [reflexivity|].
  cbn [rev le_value fold_right]. fold (le_value buf).
  rewrite byte_digits_app, digits_value_app, IH. cbn [byte_digits flat_map app fold_left].
  pose proof (Z.div_mod (Z_of_byte b) 16 ltac:(lia)). lia.
Qed.

Lemma le_value_range buf : 0 <= le_value buf < 256 ^ Z.of_nat (length buf).
Proof.
  induction buf as [|b buf IH]; [simpl; lia|].
  cbn [le_value fold_right length]. fold (le_value buf).
  rewrite Nat2Z.inj_succ, Z.pow_succ_r by lia.
  pose proof (Z_of_byte_range b). lia.
Qed.


Lemma toBigIntLE_value buf : toBigIntLE buf = Normal (le_value buf).
Proof.
  unfold toBigIntLE. cbv zeta. rewrite Buffer_toString_hex_digits, length_map.
  destruct (Z.eqb_spec (Z.of_nat (length (byte_digits (rev buf)))) 0) as [E|E].
  - rewrite <- digits_value_rev_bytes.
    destruct (byte_digits (rev buf)); [reflexivity|simpl in E; lia].
  - unfold BigInt_of_0x.
    destruct (map hex_digit (byte_digits (rev buf))) as [|c rest] eqn:Em.
    + apply (f_equal (@length ascii)) in Em. rewrite length_map in Em.
      simpl in Em. lia.
    + rewrite <- Em, parse_hex_digits by apply byte_digits_range.
      fold (digits_value (byte_digits (rev buf))).
      rewrite digits_value_rev_bytes. reflexivity.
Qed.

(** X9.  [toBigIntLE] never throws: on every buffer it returns the number
    the bytes denote least significant byte first (zero on the empty buffer),
    a value in [[0, 256^length)]. *)
Theorem toBigIntLE_little_endian (buf : Buffer) :
  toBigIntLE buf = Normal (le_value buf) /\
  0 <= le_value buf < 256 ^ Z.of_nat (length buf) /\
  toBigIntLE [] = Normal 0.
Proof.
  split; [apply toBigIntLE_value|]. split; [apply le_value_range|reflexivity].
Qed.





(* ================================================================== *)
(** * What a round trip through a buffer changes *)
(* ================================================================== *)

Lemma ceil_div8_bounds n : n <= 8 * ceil_div8 n < n + 8.
Proof.
  unfold ceil_div8. pose proof (Z.div_mod (- n) 8 ltac:(lia)).
  pose proof (Z.mod_pos_bound (- n) 8 ltac:(lia)). lia.
Qed.

Lemma ceil_div8_exact n : 8 * ceil_div8 n = n <-> n mod 8 = 0.
Proof.
  unfold ceil_div8. pose proof (Z.div_mod (- n) 8 ltac:(lia)) as H.
  pose proof (Z.mod_pos_bound (- n) 8 ltac:(lia)) as Hr.
  pose proof (Z.mod_pos_bound n 8 ltac:(lia)) as Hn.
  split; intros E.
  - apply Z.mod_divide; [lia|]. exists (- (- n / 8)). lia.
  - assert (Hm : (- n) mod 8 = 0).
    { apply Z.mod_divide; [lia|]. apply Z.mod_divide in E; [|lia].
      destruct E as [q ->]. exists (- q). lia. }
    lia.
Qed.

Lemma firstn_2_app (a b : Buffer) : length a = 2%nat -> firstn 2 (a ++ b) = a.
Proof.
  intros H. rewrite <- H at 1. rewrite firstn_app, firstn_all, Nat.sub_diag.
  rewrite firstn_O. apply app_nil_r.
Qed.

Lemma skipn_2_app (a b : Buffer) : length a = 2%nat -> skipn 2 (a ++ b) = b.
Proof.
  intros H. rewrite <- H at 1. rewrite skipn_app, skipn_all, Nat.sub_diag.
  reflexivity.
Qed.

(** The filter half of a buffer written by [toBuffer] reads back as it was
    written, and the width as the next multiple of eight. *)
Lemma toBuffer_filter_half this :
  1 <= bits this -> in_width this ->
  toBigIntLE (toBufferLE (filter this) (ceil_div8 (bits this))) = Normal (filter this) /\
  Z.of_nat (length (toBufferLE (filter this) (ceil_div8 (bits this)))) =
  ceil_div8 (bits this).
Proof.
  intros Hb Hf. pose proof (ceil_div8_bounds (bits this)) as Hc.
  apply toBufferLE_roundtrip; [lia|]. destruct Hf as [Hf0 Hf1].
  split; [assumption|]. eapply Z.lt_le_trans; [exact Hf1|].
  apply Z.pow_le_mono_r; lia.
Qed.

(** X11.  A round trip rounds the width up: for a filter with
    [bits >= 1], [0 <= k < 2^16] and a state below [2^bits],
    [fromBuffer (toBuffer F)] returns a filter with the same [k] and the same
    bit-vector whose [bits] is the least multiple of eight that is at least
    [F.bits]; the width is unchanged exactly when it was a multiple of
    eight. *)
Theorem round_trip_rounds_width_up (this : BloomFilter) :
  1 <= bits this -> 0 <= k this < 2 ^ 16 -> in_width this ->
  fromBuffer (toBuffer this) =
  Normal {| bits := 8 * ceil_div8 (bits this); k := k this; filter := filter this |} /\
  bits this <= 8 * ceil_div8 (bits this) < bits this + 8 /\
  (8 * ceil_div8 (bits this) = bits this <-> bits this mod 8 = 0).
Proof.
  intros Hb Hk Hf.
  destruct (toBuffer_filter_half this Hb Hf) as [Hf1 Hf2].
  destruct (toBufferLE_roundtrip (k this) 2 ltac:(lia) ltac:(simpl; lia)) as [Hk1 Hk2].
  assert (Hl : length (toBufferLE (k this) 2) = 2%nat) by lia.
  split; [|split; [apply ceil_div8_bounds|apply ceil_div8_exact]].
  unfold fromBuffer, toBuffer.
  rewrite firstn_2_app, skipn_2_app, Hk1, Hf1, length_app by exact Hl.
  cbn [bind]. unfold set_filter, new_BloomFilter. cbn [bits k]. do 2 f_equal. lia.
Qed.

Lemma round_trip_rounds_width_up_witness :
  1 <= bits (mkBloomFilter 12 3 0xabc) /\
  0 <= k (mkBloomFilter 12 3 0xabc) < 2 ^ 16 /\
  in_width (mkBloomFilter 12 3 0xabc) /\
  fromBuffer (toBuffer (mkBloomFilter 12 3 0xabc)) =
  Normal {| bits := 8 * ceil_div8 (bits (mkBloomFilter 12 3 0xabc));
            k := k (mkBloomFilter 12 3 0xabc);
            filter := filter (mkBloomFilter 12 3 0xabc) |} /\
  bits (mkBloomFilter 12 3 0xabc) <= 8 * ceil_div8 (bits (mkBloomFilter 12 3 0xabc))
  < bits (mkBloomFilter 12 3 0xabc) + 8 /\
  (8 * ceil_div8 (bits (mkBloomFilter 12 3 0xabc)) = bits (mkBloomFilter 12 3 0xabc) <->
   bits (mkBloomFilter 12 3 0xabc) mod 8 = 0).
Proof.
  assert (H1 : 1 <= bits (mkBloomFilter 12 3 0xabc)) by (simpl; lia).
  assert (H2 : 0 <= k (mkBloomFilter 12 3 0xabc) < 2 ^ 16)
    by (vm_compute; split; [discriminate|reflexivity]).
  assert (H3 : in_width (mkBloomFilter 12 3 0xabc))
    by (vm_compute; split; [discriminate|reflexivity]).
  split; [exact H1|]. split; [exact H2|]. split; [exact H3|].
  exact (round_trip_rounds_width_up (mkBloomFilter 12 3 0xabc) H1 H2 H3).
Defined.

(** X12.  Filters built through the interface survive a round trip: start
    from a new filter whose [bits] is a positive multiple of eight and whose
    [k] is in [[0, 2^16)], run any sequence of [add] and [union] calls (the
    arguments of [union] being below [2^bits]); [fromBuffer (toBuffer F)] then
    returns the filter [F] reached. *)
Theorem built_filter_round_trip (XXH64 : Buffer -> Z -> Z) (width hashes : Z)
        (cs : list call) :
  0 < width -> width mod 8 = 0 -> 0 <= hashes < 2 ^ 16 ->
  Forall (call_in_width width) cs ->
  fromBuffer (toBuffer (snd (perform_all XXH64 cs (new_BloomFilter width hashes)))) =
  Normal (snd (perform_all XXH64 cs (new_BloomFilter width hashes))).
Proof.
  intros Hw Hm Hh Hcs.
  set (F0 := new_BloomFilter width hashes).
  assert (H0 : in_width F0)
    by (unfold in_width; simpl; split; [lia|apply Z.pow_pos_nonneg; lia]).
  pose proof (perform_all_in_width XXH64 cs F0 Hw H0 Hcs) as Hin.
  destruct (perform_all_params XXH64 cs F0) as [Hbits Hk].
  set (F := snd (perform_all XXH64 cs F0)) in *. cbn [F0 bits k new_BloomFilter] in Hbits, Hk.
  destruct (toBuffer_filter_half F ltac:(lia) Hin) as [Hf1 Hf2].
  destruct (toBufferLE_roundtrip (k F) 2 ltac:(lia) ltac:(rewrite Hk; simpl; lia))
    as [Hk1 Hk2].
  assert (Hl : length (toBufferLE (k F) 2) = 2%nat) by lia.
  unfold fromBuffer, toBuffer.
  rewrite firstn_2_app, skipn_2_app, Hk1, Hf1, length_app by exact Hl.
  cbn [bind]. unfold set_filter, new_BloomFilter. cbn [bits k].
  assert (E : 8 * ceil_div8 (bits F) = bits F) by (apply ceil_div8_exact; congruence).
  destruct F as [b kk f]. cbn [bits k filter] in *. do 2 f_equal. lia.
Qed.

Lemma built_filter_round_trip_witness :
  0 < 8 /\ 8 mod 8 = 0 /\ 0 <= 2 < 2 ^ 16 /\
  Forall (call_in_width 8)
         [CallAdd (ItemString "alpha"); CallUnion (mkBloomFilter 8 2 129)] /\
  fromBuffer (toBuffer (snd (perform_all fnv1a64
                               [CallAdd (ItemString "alpha");
                                CallUnion (mkBloomFilter 8 2 129)]
                               (new_BloomFilter 8 2)))) =
  Normal (snd (perform_all fnv1a64
                 [CallAdd (ItemString "alpha"); CallUnion (mkBloomFilter 8 2 129)]
                 (new_BloomFilter 8 2))).
Proof.
  assert (H3 : 0 <= 2 < 2 ^ 16) by (vm_compute; split; [discriminate|reflexivity]).
  assert (H4 : Forall (call_in_width 8)
                      [CallAdd (ItemString "alpha"); CallUnion (mkBloomFilter 8 2 129)]).
  { repeat constructor; vm_compute; discriminate. }
  split; [reflexivity|]. split; [reflexivity|]. split; [exact H3|]. split; [exact H4|].
  exact (built_filter_round_trip fnv1a64 8 2 _ ltac:(reflexivity) ltac:(reflexivity) H3 H4).
Defined.

(* ================================================================== *)
(** * Numbers too wide for their field *)
(* ================================================================== *)

Lemma hex_digits_lower fuel : forall n,
  0 < n < 16 ^ Z.of_nat fuel ->
  (1 <= length (hex_digits fuel n []))%nat /\
  16 ^ (Z.of_nat (length (hex_digits fuel n [])) - 1) <= n.
Proof.
  induction fuel as [|fuel IH]; intros n Hn; [simpl in Hn; lia|].
  cbn [hex_digits]. destruct (Z.eqb_spec n 0) as [E|_]; [lia|].
  rewrite hex_digits_app, length_app. cbn [length].
  rewrite Nat2Z.inj_succ, Z.pow_succ_r in Hn by lia.
  destruct (Z.eq_dec (n / 16) 0) as [E0|Hne].
  - rewrite E0. replace (hex_digits fuel 0 []) with (@nil Z)
      by (destruct fuel; reflexivity).
    simpl. lia.
  - assert (Hq : 0 < n / 16 < 16 ^ Z.of_nat fuel).
    { split; [|apply Z.div_lt_upper_bound; lia].
      pose proof (Z.div_pos n 16 ltac:(lia) ltac:(lia)). lia. }
    destruct (IH _ Hq) as [Hl Hv]. split; [lia|].
    replace (Z.of_nat (length (hex_digits fuel (n / 16) []) + 1) - 1)
      with (Z.succ (Z.of_nat (length (hex_digits fuel (n / 16) [])) - 1)) by lia.
    rewrite Z.pow_succ_r by lia.
    pose proof (Z.mul_div_le n 16 ltac:(lia)). lia.
Qed.

Lemma fold_digits ys : forall acc,
  Forall is_digit ys ->
  fold_left (fun acc d => 16 * acc + d) ys acc =
  acc * 16 ^ Z.of_nat (length ys) + digits_value ys /\
  0 <= digits_value ys < 16 ^ Z.of_nat (length ys).
Proof.
  unfold digits_value.
  induction ys as [|y ys IH]; intros acc Hys; [simpl; lia|].
  inversion Hys as [|? ? Hy Hys']; subst. red in Hy.
  cbn [fold_left length]. rewrite Nat2Z.inj_succ, Z.pow_succ_r by lia.
  destruct (IH (16 * acc + y) Hys') as [E1 Hr].
  destruct (IH (16 * 0 + y) Hys') as [E2 _].
  rewrite E1, E2. split; [ring|]. nia.
Qed.

(** The digits [toString(16)] prints for a positive number: no leading
    zero. *)
Lemma BigInt_toString16_tight num :
  0 < num ->
  exists ds,
    BigInt_toString16 num = map hex_digit ds /\
    Forall is_digit ds /\ digits_value ds = num /\
    16 ^ (Z.of_nat (length ds) - 1) <= num < 16 ^ Z.of_nat (length ds).
Proof.
  intros Hnum. unfold BigInt_toString16.
  destruct (Z.eqb_spec num 0) as [E|_]; [lia|].
  replace (num <? 0) with false by (symmetry; apply Z.ltb_ge; lia).
  rewrite Z.abs_eq by lia.
  set (fuel := S (Z.to_nat (Z.log2 num))).
  assert (Hfuel : num < 16 ^ Z.of_nat fuel).
  { subst fuel. pose proof (Z.log2_nonneg num) as Hl.
    destruct (Z.log2_spec num ltac:(lia)) as [_ Hup].
    eapply Z.lt_le_trans; [exact Hup|].
    rewrite Nat2Z.inj_succ, Z2Nat.id by lia.
    replace 16 with (2 ^ 4) by reflexivity.
    rewrite <- Z.pow_mul_r by lia. apply Z.pow_le_mono_r; lia. }
  exists (hex_digits fuel num []).
  assert (Hr : Forall is_digit (hex_digits fuel num []))
    by (apply hex_digits_range; constructor).
  assert (Hv : digits_value (hex_digits fuel num []) = num)
    by (apply hex_digits_value; lia).
  split; [reflexivity|]. split; [exact Hr|]. split; [exact Hv|].
  destruct (hex_digits_lower fuel num ltac:(lia)) as [_ Hlow].
  split; [exact Hlow|].
  destruct (fold_digits (hex_digits fuel num []) 0 Hr) as [_ Hup]. lia.
Qed.

(** [toBufferLE] on a number with more than [2 * width] hexadecimal digits
    keeps the leading [2 * width] digits. *)
Lemma toBufferLE_truncates num width :
  1 <= width -> 16 ^ (2 * width) <= num ->
  exists e,
    1 <= e /\
    toBigIntLE (toBufferLE num width) = Normal (num / 16 ^ e) /\
    16 ^ (2 * width - 1) <= num / 16 ^ e < 16 ^ (2 * width) /\
    Z.of_nat (length (toBufferLE num width)) = width.
Proof.
  intros Hw Hnum.
  assert (Hpos : 0 < 16 ^ (2 * width)) by (apply Z.pow_pos_nonneg; lia).
  destruct (BigInt_toString16_tight num ltac:(lia)) as (ds & Hhex & Hds & Hval & Hlow & Hup).
  assert (Hlen : 2 * width < Z.of_nat (length ds)).
  { destruct (Z_lt_le_dec (2 * width) (Z.of_nat (length ds))) as [|Hle]; [assumption|].
    assert (16 ^ Z.of_nat (length ds) <= 16 ^ (2 * width))
      by (apply Z.pow_le_mono_r; lia). lia. }
  set (m := Z.to_nat (2 * width)).
  assert (Hsplit : ds = firstn m ds ++ skipn m ds) by (symmetry; apply firstn_skipn).
  set (xs := firstn m ds) in *. set (ys := skipn m ds) in *.
  assert (Hboth : Forall is_digit (xs ++ ys)) by (rewrite <- Hsplit; exact Hds).
  apply Forall_app in Hboth as [Hxs Hys].
  assert (Hlx : length xs = m) by (subst xs; rewrite length_firstn; lia).
  assert (Hly : Z.of_nat (length ys) = Z.of_nat (length ds) - 2 * width)
    by (subst ys; rewrite length_skipn; lia).
  set (e := Z.of_nat (length ys)) in *.
  assert (Hpe : 0 < 16 ^ e) by (apply Z.pow_pos_nonneg; lia).
  destruct (fold_digits ys (digits_value xs) Hys) as [Hfold Hyr]. fold e in Hfold, Hyr.
  assert (Hnum' : num = digits_value xs * 16 ^ e + digits_value ys).
  { rewrite <- Hval, Hsplit, digits_value_app. exact Hfold. }
  assert (Hdiv : num / 16 ^ e = digits_value xs).
  { symmetry. apply (Z.div_unique_pos _ _ _ (digits_value ys)); lia. }
  assert (Hpad : slice0 (padStart0 (BigInt_toString16 num) (width * 2)) (width * 2) =
                 map hex_digit xs).
  { unfold slice0, padStart0. rewrite Hhex, length_map.
    replace (width * 2 <? 0) with false by (symmetry; apply Z.ltb_ge; lia).
    replace (Z.to_nat (width * 2 - Z.of_nat (length ds))) with O by lia.
    cbn [repeat app]. replace (Z.to_nat (width * 2)) with m by lia.
    subst xs. apply firstn_map. }
  destruct (hex_pairs_roundtrip (Z.to_nat width) xs) as [Hrt Hn]; [lia|assumption|].
  exists e. split; [lia|]. split; [|split].
  - unfold toBufferLE, toBigIntLE. cbv zeta. rewrite Hpad, rev_involutive, Hrt.
    rewrite length_map.
    replace (Z.of_nat (length xs) =? 0) with false by (symmetry; apply Z.eqb_neq; lia).
    unfold BigInt_of_0x. destruct (map hex_digit xs) as [|c rest] eqn:E.
    + apply (f_equal (@length ascii)) in E. rewrite length_map in E. simpl in E. lia.
    + rewrite <- E, parse_hex_digits by assumption.
      fold (digits_value xs). rewrite Hdiv. reflexivity.
  - rewrite Hdiv. destruct (fold_digits xs 0 Hxs) as [_ Hxr].
    rewrite Hlx in Hxr. replace (Z.of_nat m) with (2 * width) in Hxr by lia.
    split; [|lia].
    assert (Hle : 16 ^ (2 * width - 1) * 16 ^ e <= num).
    { rewrite <- Z.pow_add_r by lia.
      replace (2 * width - 1 + e) with (Z.of_nat (length ds) - 1) by lia. exact Hlow. }
    destruct (Z_lt_le_dec (digits_value xs) (16 ^ (2 * width - 1))) as [Hlt|]; [|assumption].
    exfalso. nia.
  - unfold toBufferLE. cbv zeta. rewrite Hpad, length_rev, Hn. lia.
Qed.

(** X13.  A [k] of [2^16] or more does not survive serialisation: for a
    filter with [bits >= 1], a state below [2^bits] and [k >= 2^16],
    [fromBuffer (toBuffer F)] returns a filter whose [k] is the number made
    of the four leading hexadecimal digits of [F.k] (so [k / 16^e] for some
    [e >= 1], a value in [[0x1000, 0xffff]]), which differs from [F.k]; the
    bit-vector is kept. *)
Theorem large_k_is_truncated (this : BloomFilter) :
  1 <= bits this -> in_width this -> 2 ^ 16 <= k this ->
  exists e,
    1 <= e /\
    fromBuffer (toBuffer this) =
    Normal {| bits := 8 * ceil_div8 (bits this);
              k := k this / 16 ^ e;
              filter := filter this |} /\
    0x1000 <= k this / 16 ^ e <= 0xffff /\
    k this / 16 ^ e <> k this.
Proof.
  intros Hb Hf Hk.
  destruct (toBuffer_filter_half this Hb Hf) as [Hf1 Hf2].
  destruct (toBufferLE_truncates (k this) 2 ltac:(lia) ltac:(simpl; lia))
    as (e & He & Hk1 & Hkr & Hk2).
  assert (Hl : length (toBufferLE (k this) 2) = 2%nat) by lia.
  exists e. split; [exact He|]. split; [|split].
  - unfold fromBuffer, toBuffer.
    rewrite firstn_2_app, skipn_2_app, Hk1, Hf1, length_app by exact Hl.
    cbn [bind]. unfold set_filter, new_BloomFilter. cbn [bits k]. do 2 f_equal. lia.
  - change (16 ^ (2 * 2 - 1)) with 0x1000 in Hkr.
    change (16 ^ (2 * 2)) with 0x10000 in Hkr. lia.
  - change (16 ^ (2 * 2)) with 0x10000 in Hkr. change (2 ^ 16) with 0x10000 in Hk. lia.
Qed.

Lemma large_k_is_truncated_witness :
  1 <= bits (mkBloomFilter 16 0x12345 0xabc) /\
  in_width (mkBloomFilter 16 0x12345 0xabc) /\
  2 ^ 16 <= k (mkBloomFilter 16 0x12345 0xabc) /\
  exists e,
    1 <= e /\
    fromBuffer (toBuffer (mkBloomFilter 16 0x12345 0xabc)) =
    Normal {| bits := 8 * ceil_div8 (bits (mkBloomFilter 16 0x12345 0xabc));
              k := k (mkBloomFilter 16 0x12345 0xabc) / 16 ^ e;
              filter := filter (mkBloomFilter 16 0x12345 0xabc) |} /\
    0x1000 <= k (mkBloomFilter 16 0x12345 0xabc) / 16 ^ e <= 0xffff /\
    k (mkBloomFilter 16 0x12345 0xabc) / 16 ^ e <> k (mkBloomFilter 16 0x12345 0xabc).
Proof.
  assert (H1 : 1 <= bits (mkBloomFilter 16 0x12345 0xabc)) by (simpl; lia).
  assert (H2 : in_width (mkBloomFilter 16 0x12345 0xabc))
    by (vm_compute; split; [discriminate|reflexivity]).
  assert (H3 : 2 ^ 16 <= k (mkBloomFilter 16 0x12345 0xabc))
    by (vm_compute; discriminate).
  split; [exact H1|]. split; [exact H2|]. split; [exact H3|].
  exact (large_k_is_truncated (mkBloomFilter 16 0x12345 0xabc) H1 H2 H3).
Defined.

(* ================================================================== *)
(** * [compare] with the sides exchanged *)
(* ================================================================== *)

(** X14.  [B.compare(A)] is [A.compare(B)] with [Larger] and [Smaller]
    exchanged, for every pair of filters; and a filter compares [Equal] to
    itself. *)
Theorem compare_flip (fastpopcnt : Z -> Z -> Z) (Math_log : float -> float)
        (A B : BloomFilter) :
  compare fastpopcnt Math_log B A =
  FilterComparison_flip (compare fastpopcnt Math_log A B) /\
  compare fastpopcnt Math_log A A = Equal.
Proof.
  split.
  - rewrite !compare_unfold.
    rewrite (Z.eqb_sym (k A) (k B)), (Z.eqb_sym (bits A) (bits B)).
    destruct (negb (k B =? k A) || negb (bits B =? bits A)); [reflexivity|].
    rewrite (Z.eqb_sym (filter B) (filter A)).
    destruct (filter A =? filter B); [reflexivity|].
    destruct (size fastpopcnt Math_log B <? size fastpopcnt Math_log A)%float eqn:E1.
    + rewrite (ltb_asym _ _ E1). reflexivity.
    + destruct (size fastpopcnt Math_log A <? size fastpopcnt Math_log B)%float;
        reflexivity.
  - rewrite compare_unfold, !Z.eqb_refl. reflexivity.
Qed.

(* ================================================================== *)
(** * The range of [OptimalParameters] *)
(* ================================================================== *)

Lemma SFcompare_refl x : x <> S754_nan -> SFcompare x x = Some Eq.
Proof.
  destruct x as [s|s| |s m e]; intros H; simpl; try reflexivity.
  - destruct s; reflexivity.
  - contradiction.
  - rewrite Z.compare_refl. change (Pos.compare_cont Eq m m) with (Pos.compare m m).
    rewrite Pos.compare_refl. destruct s; reflexivity.
Qed.

Lemma ltb_not_nan x y : (x <? y)%float = true -> (x =? x)%float = true.
Proof.
  intros H. apply ltb_Lt in H. apply eqb_Eq. apply SFcompare_refl.
  intros E. rewrite E in H. discriminate.
Qed.

Lemma OptimalParameters_loop_search Math_log Math_pow fuel n fp :
  (1000 <= fuel)%nat ->
  OptimalParameters_loop Math_log Math_pow fuel n fp
                         (Number_MAX_VALUE, 0%float, 1%float) =
  Some (search Math_log Math_pow n fp k_range).
Proof.
  intros Hfuel.
  pose proof (OptimalParameters_loop_unroll Math_log Math_pow n fp
                999 fuel Number_MAX_VALUE 0%float 1%float ltac:(lia)) as Hloop.
  rewrite count_from_k_range in Hloop.
  rewrite search_unfold. apply Hloop; [exact k_range_below|exact count_end_k_range].
Qed.

Lemma k_range_not_below_one :
  forallb (fun x => negb (x <? 1)%float) k_range = true.
Proof. vm_compute. reflexivity. Qed.

Lemma Number_not_below_one j :
  1 <= j <= 999 -> (Number_of_Z j <? 1)%float = false.
Proof.
  intros Hj. pose proof k_range_not_below_one as H.
  rewrite forallb_forall in H. apply negb_true_iff, H, In_k_range. exists j. auto.
Qed.

(** The result of the search: the initial pair, or [m] at a [k] of the
    range where it was below [Number.MAX_VALUE]. *)
Lemma OptimalParameters_cases Math_log Math_pow fuel n fp :
  (1000 <= fuel)%nat ->
  exists min_m min_k,
    OptimalParameters Math_log Math_pow fuel n fp =
    Some {| p_k := if (min_k <? 1)%float then 1%float else min_k;
            p_bits := if (min_m <? 8)%float then 8%float else min_m |} /\
    ((min_m = Number_MAX_VALUE /\ min_k = 0%float) \/
     exists j, 1 <= j <= 999 /\ min_k = Number_of_Z j /\
               (min_m <? Number_MAX_VALUE)%float = true).
Proof.
  intros Hfuel. unfold OptimalParameters. cbv zeta.
  rewrite OptimalParameters_loop_search by assumption.
  destruct (search Math_log Math_pow n (fp_or_default fp) k_range) as [min_m min_k] eqn:Hs.
  exists min_m, min_k. split; [reflexivity|].
  rewrite search_unfold in Hs.
  destruct (track_min_fold _ _ _ _ _ _ _ _ _ Hs) as (_ & _ & Hc).
  destruct Hc as [Hc|(x & Hin & Hk & Hm & Hlt)].
  - left. inversion Hc. auto.
  - right. apply In_k_range in Hin as (j & Hj & ->). exists j.
    split; [exact Hj|]. split; [exact Hk|]. rewrite Hm. exact Hlt.
Qed.

Lemma OptimalParameters_k_integer Math_log Math_pow fuel n fp :
  (1000 <= fuel)%nat ->
  exists p j,
    OptimalParameters Math_log Math_pow fuel n fp = Some p /\
    1 <= j <= 999 /\ p_k p = Number_of_Z j.
Proof.
  intros Hfuel.
  destruct (OptimalParameters_cases Math_log Math_pow fuel n fp Hfuel)
    as (min_m & min_k & Hp & Hc).
  destruct Hc as [[_ ->]|(j & Hj & -> & _)].
  - eexists. exists 1. split; [exact Hp|]. split; [lia|]. vm_compute. reflexivity.
  - eexists. exists j. split; [exact Hp|]. split; [exact Hj|]. cbn [p_k].
    rewrite Number_not_below_one by exact Hj. reflexivity.
Qed.

(** X15.  Whatever the arguments and whatever [Math.log] and [Math.pow]
    compute, [OptimalParameters] returns a [k] that is an integer between 1
    and 999 and a [bits] that is a number (not NaN) and not below 8. *)
Theorem OptimalParameters_range (Math_log : float -> float)
        (Math_pow : float -> float -> float) (fuel : nat) (n : float)
        (fp : option float) :
  (1000 <= fuel)%nat ->
  exists p,
    OptimalParameters Math_log Math_pow fuel n fp = Some p /\
    (exists j, 1 <= j <= 999 /\ p_k p = Number_of_Z j) /\
    (p_bits p =? p_bits p)%float = true /\
    (p_bits p <? 8)%float = false.
Proof.
  intros Hfuel.
  destruct (OptimalParameters_cases Math_log Math_pow fuel n fp Hfuel)
    as (min_m & min_k & Hp & Hc).
  eexists. split; [exact Hp|]. cbn [p_k p_bits].
  assert (Hnn : (min_m =? min_m)%float = true).
  { destruct Hc as [[-> _]|(j & _ & _ & Hlt)].
    - vm_compute. reflexivity.
    - eapply ltb_not_nan. exact Hlt. }
  split; [|split].
  - destruct Hc as [[_ ->]|(j & Hj & -> & _)].
    + exists 1. split; [lia|]. vm_compute. reflexivity.
    + exists j. split; [exact Hj|].
      rewrite Number_not_below_one by exact Hj. reflexivity.
  - destruct (min_m <? 8)%float; [vm_compute; reflexivity|exact Hnn].
  - destruct (min_m <? 8)%float eqn:E; [vm_compute; reflexivity|exact E].
Qed.

Lemma OptimalParameters_range_witness :
  (1000 <= 1000)%nat /\
  exists p,
    OptimalParameters log_lower pow_stub 1000 1000%float None = Some p /\
    (exists j, 1 <= j <= 999 /\ p_k p = Number_of_Z j) /\
    (p_bits p =? p_bits p)%float = true /\
    (p_bits p <? 8)%float = false.
Proof.
  split; [lia|].
  apply (OptimalParameters_range log_lower pow_stub 1000 1000%float None). lia.
Defined.

(* ================================================================== *)
(** * [fromCollection] *)
(* ================================================================== *)

Lemma BigInt_of_k_range :
  forallb (fun i => match BigInt_of_Number (Number_of_Z (Z.of_nat i)) with
                    | Normal z => z =? Z.of_nat i
                    | Throw _ => false
                    end) (seq 1 999) = true.
Proof. vm_compute. reflexivity. Qed.

Lemma BigInt_of_Number_k j :
  1 <= j <= 999 -> BigInt_of_Number (Number_of_Z j) = Normal j.
Proof.
  intros Hj. pose proof BigInt_of_k_range as H. rewrite forallb_forall in H.
  specialize (H (Z.to_nat j) ltac:(apply in_seq; lia)).
  rewrite Z2Nat.id in H by lia.
  destruct (BigInt_of_Number (Number_of_Z j)) as [z|e]; [|discriminate].
  apply Z.eqb_eq in H. congruence.
Qed.

Lemma ToUint32_nonneg x : 0 <= ToUint32 x.
Proof.
  unfold ToUint32. destruct (truncate_Number x); [|lia].
  apply Z.mod_pos_bound. lia.
Qed.

(** [1 << x] is a power of two up to [2^30], or [-2^31]: never zero. *)
Lemma shift_left32_one x :
  exists s, 0 <= s <= 31 /\
            shift_left32 1 x = (if s <? 31 then 2 ^ s else - 2 ^ 31).
Proof.
  unfold shift_left32, int32_of_bits.
  set (s := Z.land (ToUint32 x) 31).
  assert (Hs : 0 <= s <= 31).
  { assert (E : s = ToUint32 x mod 32).
    { subst s. change 31 with (Z.ones 5). rewrite Z.land_ones by lia. reflexivity. }
    pose proof (Z.mod_pos_bound (ToUint32 x) 32 ltac:(lia)) as H. lia. }
  exists s. split; [exact Hs|]. rewrite Z.mul_1_l.
  assert (Hp : 0 < 2 ^ s) by (apply Z.pow_pos_nonneg; lia).
  assert (Hlt : 2 ^ s < 2 ^ 32) by (apply Z.pow_lt_mono_r; lia).
  rewrite Z.mod_small by lia.
  destruct (Z.ltb_spec s 31) as [H31|H31].
  - assert (2 ^ s < 2 ^ 31) by (apply Z.pow_lt_mono_r; lia).
    destruct (Z.ltb_spec (2 ^ s) (2 ^ 31)); [reflexivity|lia].
  - replace s with 31 by lia. reflexivity.
Qed.

(** X16.  [fromCollection] holds every item of the collection, unless
    the constructor throws: whatever [Math.log], [Math.pow] and [Math.log2]
    compute, the call builds a filter with a [k] between 1 and 999 and with
    [bits = 1 << x] for the computed exponent [x] (a power of two up to
    [2^30], or [-2^31] when the shift count is 31; never zero); it throws
    what the constructor call throws for that width, and otherwise returns a
    filter with these parameters on which every item of the collection tests
    [true]. *)
Theorem fromCollection_holds_items (XXH64 : Buffer -> Z -> Z)
        (Math_log : float -> float) (Math_pow : float -> float -> float)
        (Math_log2 : float -> float) (fastpopcnt_call : Z -> completion unit)
        (fuel : nat) (collection : list item) :
  (1000 <= fuel)%nat ->
  exists width hashes bfilter,
    1 <= hashes <= 999 /\
    (exists s, 0 <= s <= 31 /\ width = (if s <? 31 then 2 ^ s else - 2 ^ 31)) /\
    width <> 0 /\
    bits bfilter = width /\ k bfilter = hashes /\
    (forall x, In x collection -> test XXH64 x bfilter = Normal true) /\
    fromCollection XXH64 Math_log Math_pow Math_log2 fastpopcnt_call fuel collection =
    Some (match fastpopcnt_call width with
          | Normal _ => Normal bfilter
          | Throw e => Throw e
          end).
Proof.
  intros Hfuel. unfold fromCollection.
  destruct (OptimalParameters_k_integer Math_log Math_pow fuel
              (Number_of_Z (Z.of_nat (length collection))) None Hfuel)
    as (p & j & Hp & Hj & Hk).
  rewrite Hp. cbv zeta. rewrite Hk, BigInt_of_Number_k by exact Hj. cbn [bind].
  unfold Math_round_int32, construct.
  destruct (shift_left32_one (Math_ceil (Math_log2 (p_bits p)))) as (s & Hs & Hbits).
  set (width := shift_left32 1 (Math_ceil (Math_log2 (p_bits p)))) in *.
  assert (Hne : width <> 0).
  { rewrite Hbits. destruct (s <? 31); [|lia].
    pose proof (Z.pow_pos_nonneg 2 s ltac:(lia) ltac:(lia)). lia. }
  destruct (add_all_members XXH64 collection (new_BloomFilter width j)
              ltac:(left; exact Hne)) as (b & Hrun & Hb & Hkb & Hin & _).
  cbn [bits k new_BloomFilter] in Hb, Hkb.
  exists width, j, b.
  split; [exact Hj|]. split; [exists s; auto|]. split; [exact Hne|].
  split; [exact Hb|]. split; [exact Hkb|]. split; [exact Hin|].
  destruct (fastpopcnt_call width) as [[]|e]; cbn [bind]; [|reflexivity].
  rewrite Hrun. reflexivity.
Qed.

Lemma fromCollection_holds_items_witness :
  (1000 <= 1000)%nat /\
  exists width hashes bfilter,
    1 <= hashes <= 999 /\
    (exists s, 0 <= s <= 31 /\ width = (if s <? 31 then 2 ^ s else - 2 ^ 31)) /\
    width <> 0 /\
    bits bfilter = width /\ k bfilter = hashes /\
    (forall x, In x [ItemString "alpha"; ItemString "beta"] ->
               test fnv1a64 x bfilter = Normal true) /\
    fromCollection fnv1a64 log_lower pow_stub log_lower (fun _ => Normal tt) 1000
                   [ItemString "alpha"; ItemString "beta"] =
    Some (match (fun _ : Z => @Normal unit tt) width with
          | Normal _ => Normal bfilter
          | Throw e => Throw e
          end).
Proof.
  split; [lia|].
  apply (fromCollection_holds_items fnv1a64 log_lower pow_stub log_lower
           (fun _ => Normal tt) 1000 [ItemString "alpha"; ItemString "beta"]).
  lia.
Defined.
